(** * A Wubi dictionary manager (start.py): code generation, import
    analysis, merge and the dictionary store

    Python values are embedded as follows.  A [str] is the list of its
    Unicode code points ([N]); a [Dict[str, str]] and a
    [Dict[str, List[str]]] are finite maps keyed by such strings; a raised
    exception is the [Raise] branch of [result]; the operator's answers to
    [input()] are a list consumed from the front. *)

From Stdlib Require Import NArith Ascii String DecimalString.
From stdpp Require Import gmap list sorting.

Local Open Scope N_scope.
Local Open Scope list_scope.

(** ** Strings *)

Abbreviation str := (list N).

(** An ASCII literal as a [str]. *)
Definition lit (s : string) : str :=
  (fun a => N_of_ascii a) <$> list_ascii_of_string s.
Arguments lit s%_string.

(** The character properties Python takes from its Unicode tables
    ([str.isspace], [str.isalpha], [str.islower], [str.isupper],
    [str.istitle] on one character).  The tables are not part of the
    program, so they are a parameter; the four laws are the entries of
    the blank, the tab, the line feed and the carriage return. *)
Class UnicodeData := {
  ch_isspace : N -> bool;
  ch_isalpha : N -> bool;
  ch_islower : N -> bool;
  ch_isupper : N -> bool;
  ch_istitle : N -> bool;
  blank_isspace : ch_isspace 32 = true;
  tab_isspace : ch_isspace 9 = true;
  lf_isspace : ch_isspace 10 = true;
  cr_isspace : ch_isspace 13 = true
}.

(** Python's tables on Basic Latin (U+0000 to U+007F) and on the CJK
    Unified Ideographs U+4E00 to U+9FA5: an ideograph is alphabetic and
    has no case.  Code points outside the two ranges are classed as plain
    symbols; the examples below use none. *)
Definition in_range (lo hi c : N) : bool := (lo <=? c) && (c <=? hi).

Program Definition latin_cjk : UnicodeData := {|
  ch_isspace c := in_range 9 13 c || in_range 28 32 c;
  ch_isalpha c := in_range 65 90 c || in_range 97 122 c || in_range 19968 40869 c;
  ch_islower c := in_range 97 122 c;
  ch_isupper c := in_range 65 90 c;
  ch_istitle c := false
|}.
Solve All Obligations with reflexivity.

(** ** Exceptions *)

Inductive exn := IndexError | EOFError | UnicodeDecodeError.

Inductive result (A : Type) : Type :=
| Ok (a : A)
| Raise (e : exn).
Arguments Ok {A} a.
Arguments Raise {A} e.

#[export] Instance result_bind : MBind result := fun A B k m =>
  match m with
  | Ok a => k a
  | Raise e => Raise e
  end.

(** [l[i]] for [i >= 0]. *)
Definition item {A} (l : list A) (i : nat) : result A :=
  match l !! i with
  | Some x => Ok x
  | None => Raise IndexError
  end.

(** [l[-1]]. *)
Definition item_last {A} (l : list A) : result A :=
  match last l with
  | Some x => Ok x
  | None => Raise IndexError
  end.

(** [s[0]] on a string: the one-character string of its first character. *)
Definition char0 (s : str) : result str :=
  c ← item s 0; Ok [c].

(** ** generate_word_code *)

(** The loop over the characters of the word: the codes found, and the
    characters that are not keys of [danzi], both in word order. *)
Fixpoint scan_word (word : str) (danzi : gmap str str) : list str * list str :=
  match word with
  | [] => ([], [])
  | char :: rest =>
      let '(char_codes, missing_chars) := scan_word rest danzi in
      match danzi !! [char] with
      | Some code => (code :: char_codes, missing_chars)
      | None => (char_codes, [char] :: missing_chars)
      end
  end.

Definition generate_word_code (word : str) (danzi : gmap str str)
  : result (option str * list str) :=
  let '(char_codes, missing_chars) := scan_word word danzi in
  if negb (bool_decide (missing_chars = [])) then Ok (None, missing_chars) else
  let word_len := length char_codes in
  if (word_len =? 1)%nat then
    c0 ← item char_codes 0; Ok (Some c0, [])
  else if (word_len =? 2)%nat then
    c0 ← item char_codes 0; c1 ← item char_codes 1;
    Ok (Some (take 2 c0 ++ take 2 c1), [])
  else if (word_len =? 3)%nat then
    c0 ← item char_codes 0; a ← char0 c0;
    c1 ← item char_codes 1; b ← char0 c1;
    c2 ← item char_codes 2;
    Ok (Some (a ++ b ++ take 2 c2), [])
  else if (word_len =? 4)%nat then
    c0 ← item char_codes 0; a ← char0 c0;
    c1 ← item char_codes 1; b ← char0 c1;
    c2 ← item char_codes 2; c ← char0 c2;
    c3 ← item char_codes 3; d ← char0 c3;
    Ok (Some (a ++ b ++ c ++ d), [])
  else if (4 <? word_len)%nat then
    c0 ← item char_codes 0; a ← char0 c0;
    c1 ← item char_codes 1; b ← char0 c1;
    c2 ← item char_codes 2; c ← char0 c2;
    cl ← item_last char_codes; d ← char0 cl;
    Ok (Some (a ++ b ++ c ++ d), [])
  else Ok (None, []).

(** ** String operations of the Python library *)

(** [a <= b] on strings: lexicographic on code points. *)
Fixpoint str_leb (a b : str) : bool :=
  match a, b with
  | [], _ => true
  | _ :: _, [] => false
  | x :: a', y :: b' => (x <? y) || ((x =? y) && str_leb a' b')
  end.

Definition str_le (a b : str) : Prop := str_leb a b = true.

#[export] Instance str_le_dec : RelDecision str_le :=
  fun a b => decide (str_leb a b = true).

(** [list.sort()] on a list of strings. *)
Definition py_sort (l : list str) : list str := merge_sort str_le l.

(** [sep.join(l)]. *)
Fixpoint join (sep : str) (l : list str) : str :=
  match l with
  | [] => []
  | [w] => w
  | w :: ws => w ++ sep ++ join sep ws
  end.

(** [s.split(sep)] for a one-character separator: every occurrence cuts,
    empty fields are kept, and there is always at least one field. *)
Fixpoint split_on_from (sep : N) (cur s : str) : list str :=
  match s with
  | [] => [cur]
  | c :: s' =>
      if c =? sep then cur :: split_on_from sep [] s'
      else split_on_from sep (cur ++ [c]) s'
  end.

Definition split_on (sep : N) (s : str) : list str := split_on_from sep [] s.

(** Iterating a text file opened for reading: universal newlines turn
    [\r\n] and a lone [\r] into [\n]; a line ends with its [\n], and a
    last line without one is yielded as it is. *)
Fixpoint universal_newlines (text : str) : str :=
  match text with
  | [] => []
  | c :: text' =>
      if c =? 13 then
        10 :: match text' with
              | [] => []
              | c' :: text'' =>
                  if c' =? 10 then universal_newlines text''
                  else universal_newlines text'
              end
      else c :: universal_newlines text'
  end.

Fixpoint lines_of (text : str) : list str :=
  match text with
  | [] => []
  | c :: text' =>
      if c =? 10 then [c] :: lines_of text'
      else match lines_of text' with
           | [] => [[c]]
           | l :: ls => (c :: l) :: ls
           end
  end.

Definition file_lines (text : str) : list str := lines_of (universal_newlines text).

Section unicode_strings.
Context {U : UnicodeData}.

(** [s.strip()]. *)
Fixpoint lstrip (s : str) : str :=
  match s with
  | [] => []
  | c :: s' => if ch_isspace c then lstrip s' else s
  end.

Definition rstrip (s : str) : str := reverse (lstrip (reverse s)).

Definition strip (s : str) : str := rstrip (lstrip s).

(** [s.split()]: the maximal runs of characters that are not white
    space. *)
Fixpoint split_ws_from (cur s : str) : list str :=
  match s with
  | [] => match cur with [] => [] | _ => [cur] end
  | c :: s' =>
      if ch_isspace c then
        match cur with
        | [] => split_ws_from [] s'
        | _ => cur :: split_ws_from [] s'
        end
      else split_ws_from (cur ++ [c]) s'
  end.

Definition split_ws (s : str) : list str := split_ws_from [] s.

(** [s.isalpha()]: not empty and every character alphabetic. *)
Definition isalpha (s : str) : bool :=
  negb (bool_decide (s = [])) && forallb ch_isalpha s.

(** [s.islower()]: no uppercase or titlecase character, and at least one
    lowercase character. *)
Definition islower (s : str) : bool :=
  negb (existsb (fun c => ch_isupper c || ch_istitle c) s) && existsb ch_islower s.

(** [is_code] of [analyze_dict_file], by its truth value. *)
Definition is_code (s : str) : bool :=
  negb (bool_decide (s = [])) && isalpha s && islower s.

(** [[line.strip() for line in f if line.strip()]]. *)
Definition stripped_lines (f : list str) : list str :=
  filter (fun line => line ≠ []) (strip <$> f).
End unicode_strings.

(** ** analyze_dict_file *)

Inductive delimiter_kind := space | tab.
Inductive format_kind := unknown | code_first | word_first.
Inductive structure_kind := single | multi.

#[export] Instance delimiter_kind_eq_dec : EqDecision delimiter_kind.
Proof. solve_decision. Defined.
#[export] Instance format_kind_eq_dec : EqDecision format_kind.
Proof. solve_decision. Defined.
#[export] Instance structure_kind_eq_dec : EqDecision structure_kind.
Proof. solve_decision. Defined.

Record analysis := {
  delimiter : delimiter_kind;
  format : format_kind;
  structure : structure_kind;
  entries : list (str * str)
}.

Definition separator (d : delimiter_kind) : N :=
  match d with tab => 9 | space => 32 end.

(** The delimiter: "space" unless the first line has a tab. *)
Definition detect_delimiter (lines : list str) : delimiter_kind :=
  match lines with
  | line0 :: _ => if bool_decide (9 ∈ line0) then tab else space
  | [] => space
  end.

Section import_analyzer.
Context {U : UnicodeData}.

(** One round of the voting loop. *)
Definition vote (d : delimiter_kind) (votes : nat * nat) (line : str) : nat * nat :=
  let '(code_first_votes, word_first_votes) := votes in
  match split_on (separator d) line with
  | p0 :: p1 :: _ =>
      if is_code p0 && negb (is_code p1) then (S code_first_votes, word_first_votes)
      else if negb (is_code p0) && is_code p1 then (code_first_votes, S word_first_votes)
      else votes
  | _ => votes
  end.

Definition count_votes (d : delimiter_kind) (lines : list str) : nat * nat :=
  foldl (vote d) (0%nat, 0%nat) (take 100 lines).

(** One round of the decoding loop: the structure seen so far and the
    entries collected so far. *)
Definition decode_line (d : delimiter_kind) (fmt : format_kind)
    (acc : structure_kind * list (str * str)) (line : str)
  : structure_kind * list (str * str) :=
  let '(struct, all_entries) := acc in
  match split_on (separator d) line with
  | p0 :: p1 :: rest =>
      match fmt with
      | code_first =>
          let code := p0 in
          let terms := p1 :: rest in
          let struct' := if (1 <? length terms)%nat then multi else struct in
          if is_code code
          then (struct', all_entries ++ ((fun term => (term, code)) <$> terms))
          else (struct', all_entries)
      | _ =>
          if bool_decide (rest = []) && is_code p1
          then (struct, all_entries ++ [(p0, p1)])
          else (struct, all_entries)
      end
  | _ => acc
  end.

(** [first_decoding] is the sequence of lines that iterating the file
    yields under the first encoding of the list that decodes it, and
    [None] when no encoding does. *)
Definition analyze_dict_file (first_decoding : option (list str)) : option analysis :=
  match first_decoding with
  | None => None
  | Some f =>
      let lines := stripped_lines f in
      match lines with
      | [] => None
      | _ :: _ =>
          let d := detect_delimiter lines in
          let '(code_first_votes, word_first_votes) := count_votes d lines in
          let decoded fmt :=
            let '(struct, all_entries) := foldl (decode_line d fmt) (single, []) lines in
            Some {| delimiter := d; format := fmt; structure := struct;
                    entries := all_entries |} in
          if (word_first_votes <? code_first_votes)%nat then decoded code_first
          else if (code_first_votes <? word_first_votes)%nat then decoded word_first
          else Some {| delimiter := d; format := unknown; structure := single;
                       entries := [] |}
      end
  end.

(** The entry [decode_line] adds for a line under the word_first format,
    as a function of the line alone. *)
Definition word_first_entry (d : delimiter_kind) (line : str) : option (str * str) :=
  match split_on (separator d) line with
  | [p0; p1] => if is_code p1 then Some (p0, p1) else None
  | _ => None
  end.
End import_analyzer.

(** The test of [check_for_updates] under which a file is reported as
    empty or of an unrecognised format, and skipped. *)
Definition skipped (a : option analysis) : bool :=
  match a with
  | None => true
  | Some a => bool_decide (format a = unknown)
  end.

(** ** perform_upgrade *)

Definition danzi_entries (all_entries : list (str * str)) : list (str * str) :=
  filter (fun e => length e.1 = 1%nat) all_entries.

Definition ciku_entries (all_entries : list (str * str)) : list (str * str) :=
  filter (fun e => (1 < length e.1)%nat) all_entries.

(** The loop that fills [new_danzi_dict]. *)
Definition new_danzi_dict (entries : list (str * str)) : gmap str str :=
  foldl (fun d e => let '(term, code) := e in
                    if (1 <? length code)%nat then <[term := code]> d else d)
        ∅ entries.

(** One round of the loop that fills [new_ciku_structured]. *)
Definition add_term (d : gmap str (list str)) (e : str * str) : gmap str (list str) :=
  let '(term, code) := e in
  let d1 := match d !! code with None => <[code := []]> d | Some _ => d end in
  let words := default [] (d1 !! code) in
  if bool_decide (term ∈ words) then d1 else <[code := words ++ [term]]> d1.

(** [new_ciku_structured] once every list has been sorted. *)
Definition new_ciku_structured (all_entries : list (str * str)) : gmap str (list str) :=
  py_sort <$> foldl add_term ∅ all_entries.

(** What [perform_upgrade] writes: the character table and the word
    dictionary that replace the files, [None] where nothing is written.
    [replace_danzi] and [replace_ciku] are the outcomes of the two
    [input(...).lower() == 'y'] tests. *)
Definition perform_upgrade (a : analysis) (replace_danzi replace_ciku : bool)
  : option (gmap str str) * option (gmap str (list str)) :=
  let all_entries := entries a in
  (match danzi_entries all_entries with
   | [] => None
   | _ :: _ => if replace_danzi then Some (new_danzi_dict (danzi_entries all_entries))
               else None
   end,
   match all_entries with
   | [] => None
   | _ :: _ => if replace_ciku then Some (new_ciku_structured all_entries) else None
   end).

(** ** The word dictionary file *)

(** [sorted(data.items())]: the keys of a dict are distinct, so the order
    of the pairs is the order of their codes. *)
Definition item_le (x y : str * list str) : Prop := str_le x.1 y.1.

#[export] Instance item_le_dec : RelDecision item_le :=
  fun x y => decide (str_leb x.1 y.1 = true).

Definition sorted_items (data : gmap str (list str)) : list (str * list str) :=
  merge_sort item_le (map_to_list data).

(** The line written for one code, nothing for an empty list. *)
Definition ciku_line (x : str * list str) : str :=
  let '(code, words) := x in
  match words with
  | [] => []
  | _ => code ++ [32] ++ join [32] words ++ [10]
  end.

(** The text [write_ciku_structured] leaves in the file. *)
Definition write_ciku_structured (data : gmap str (list str)) : str :=
  concat (ciku_line <$> sorted_items data).

Section dictionary_file.
Context {U : UnicodeData}.

(** One round of the loading loop. *)
Definition load_line (data : gmap str (list str)) (line : str) : gmap str (list str) :=
  match split_ws (strip line) with
  | code :: w :: ws => <[code := w :: ws]> data
  | _ => data
  end.

(** [file] is the text of the file, [None] when it does not exist. *)
Definition load_ciku_structured (file : option str) : gmap str (list str) :=
  match file with
  | None => ∅
  | Some text => foldl load_line ∅ (file_lines text)
  end.
End dictionary_file.

(** ** entry_mode and edit_mode: the changes to the dictionary *)

(** Storing a word under its generated code in [entry_mode]. *)
Definition store_word (ciku_structured : gmap str (list str)) (code word : str)
  : gmap str (list str) :=
  match ciku_structured !! code with
  | None => <[code := [word]]> ciku_structured
  | Some words =>
      if bool_decide (word ∈ words) then ciku_structured
      else <[code := words ++ [word]]> ciku_structured
  end.

(** [word_list.pop(del_idx)] behind its bounds test, for the 0-based
    [del_idx]; an emptied list is deleted when the menu is shown again. *)
Definition delete_word (ciku_structured : gmap str (list str)) (code : str) (del_idx : Z)
  : gmap str (list str) :=
  match ciku_structured !! code with
  | None => ciku_structured
  | Some word_list =>
      if bool_decide (0 ≤ del_idx < Z.of_nat (length word_list))%Z then
        match delete (Z.to_nat del_idx) word_list with
        | [] => delete code ciku_structured
        | l => <[code := l]> ciku_structured
        end
      else ciku_structured
  end.

(** [word_list.insert(new_idx, word_list.pop(old_idx))] behind its two
    bounds tests. *)
Definition move_word (ciku_structured : gmap str (list str)) (code : str)
    (old_idx new_idx : Z) : gmap str (list str) :=
  match ciku_structured !! code with
  | None => ciku_structured
  | Some word_list =>
      if bool_decide (0 ≤ old_idx < Z.of_nat (length word_list))%Z
         && bool_decide (0 ≤ new_idx < Z.of_nat (length word_list))%Z then
        match word_list !! Z.to_nat old_idx with
        | Some word_to_move =>
            let popped := delete (Z.to_nat old_idx) word_list in
            <[code := take (Z.to_nat new_idx) popped ++ word_to_move
                        :: drop (Z.to_nat new_idx) popped]> ciku_structured
        | None => ciku_structured
        end
      else ciku_structured
  end.

(** ** batch_entry_mode *)

(** The test on an answer typed for a missing character. *)
Definition valid_char_code (new_char_code : str) : bool :=
  negb (bool_decide (new_char_code = []))
  && forallb (fun c => (97 <=? c) && (c <=? 122)) new_char_code.

(** The [while missing_chars] loop of [batch_entry_mode].  [answers] are
    the lines still to be typed; [input()] on none raises [EOFError]. *)
Fixpoint resolve_missing (word : str) (answers : list str) (danzi : gmap str str)
    (generated_code : option str) (missing_chars : list str) {struct answers}
  : result (option str * gmap str str * list str) :=
  match missing_chars with
  | [] => Ok (generated_code, danzi, answers)
  | missing_char :: _ =>
      match answers with
      | [] => Raise EOFError
      | new_char_code :: answers' =>
          if valid_char_code new_char_code then
            let danzi' := <[missing_char := new_char_code]> danzi in
            match generate_word_code word danzi' with
            | Ok (generated_code', missing_chars') =>
                resolve_missing word answers' danzi' generated_code' missing_chars'
            | Raise e => Raise e
            end
          else Ok (None, danzi, answers')
      end
  end.

(** The state carried through the loop over [words_to_add]. *)
Record batch_state := {
  b_ciku : gmap str (list str);
  b_danzi : gmap str str;
  b_answers : list str;
  b_new_word_count : nat
}.

Definition ciku_flat (ciku_structured : gmap str (list str)) : gset str :=
  list_to_set (concat (snd <$> map_to_list ciku_structured)).

(** One round of the loop over [words_to_add]. *)
Definition batch_word (flat : gset str) (st : batch_state) (word : str)
  : result batch_state :=
  if bool_decide (word ∈ flat) then Ok st else
  r ← generate_word_code word (b_danzi st);
  r' ← resolve_missing word (b_answers st) (b_danzi st) r.1 r.2;
  let '(generated_code, danzi', answers') := r' in
  let skip := {| b_ciku := b_ciku st; b_danzi := danzi'; b_answers := answers';
                 b_new_word_count := b_new_word_count st |} in
  match generated_code with
  | None => Ok skip
  | Some [] => Ok skip
  | Some code =>
      let ciku1 := match b_ciku st !! code with
                   | None => <[code := []]> (b_ciku st)
                   | Some _ => b_ciku st
                   end in
      Ok {| b_ciku := <[code := default [] (ciku1 !! code) ++ [word]]> ciku1;
            b_danzi := danzi'; b_answers := answers';
            b_new_word_count := S (b_new_word_count st) |}
  end.

Fixpoint batch_loop (flat : gset str) (st : batch_state) (words_to_add : list str)
  : result batch_state :=
  match words_to_add with
  | [] => Ok st
  | word :: rest => st' ← batch_word flat st word; batch_loop flat st' rest
  end.

Section batch_entry.
Context {U : UnicodeData}.

(** [batch_file] is the sequence of lines of batch_add.txt. *)
Definition batch_entry_mode (ciku_structured : gmap str (list str))
    (danzi : gmap str str) (answers : list str) (batch_file : list str)
  : result batch_state :=
  let st := {| b_ciku := ciku_structured; b_danzi := danzi; b_answers := answers;
               b_new_word_count := 0 |} in
  match stripped_lines batch_file with
  | [] => Ok st
  | words_to_add => batch_loop (ciku_flat ciku_structured) st words_to_add
  end.
End batch_entry.

(** ** entry_mode: one word *)

(** One round of the loop of [entry_mode], for a word that is neither
    empty nor the letter q: the dictionary, the character table and the
    answers still to be typed, after the round. *)
Definition entry_word (ciku_structured : gmap str (list str)) (danzi : gmap str str)
    (answers : list str) (word : str)
  : result (gmap str (list str) * gmap str str * list str) :=
  r ← generate_word_code word danzi;
  r' ← resolve_missing word answers danzi r.1 r.2;
  let '(generated_code, danzi', answers') := r' in
  match generated_code with
  | None => Ok (ciku_structured, danzi', answers')
  | Some [] => Ok (ciku_structured, danzi', answers')
  | Some code => Ok (store_word ciku_structured code word, danzi', answers')
  end.

(** ** The character files *)

(** The text of danzi.txt after [append_to_danzi_file]; the file is
    created when it does not exist. *)
Definition append_to_danzi_file (file : option str) (char code : str) : str :=
  default [] file ++ char ++ [32] ++ code ++ [10].

(** [sorted(new_danzi_dict.items())]: the keys of a dict are distinct,
    so the order of the pairs is the order of their characters. *)
Definition pair_le (x y : str * str) : Prop := str_le x.1 y.1.

#[export] Instance pair_le_dec : RelDecision pair_le :=
  fun x y => decide (str_leb x.1 y.1 = true).

Definition danzi_line (x : str * str) : str := x.1 ++ [32] ++ x.2 ++ [10].

(** The text [perform_upgrade] writes to danzi.txt for [new_danzi_dict]. *)
Definition danzi_file_text (new_danzi_dict : gmap str str) : str :=
  concat (danzi_line <$> merge_sort pair_le (map_to_list new_danzi_dict)).

Section character_files.
Context {U : UnicodeData}.

(** The character and the code a line of danzi.txt gives. *)
Definition danzi_pair (line : str) : option (str * str) :=
  match split_ws (strip line) with
  | char :: code :: _ => Some (char, code)
  | _ => None
  end.

(** One round of the loop of [load_danzi_file]. *)
Definition load_danzi_line (data : gmap str str) (line : str) : gmap str str :=
  match split_ws (strip line) with
  | char :: code :: _ =>
      match data !! char with
      | None => <[char := code]> data
      | Some _ => data
      end
  | _ => data
  end.

(** [file] is the text of the file, [None] when it does not exist. *)
Definition load_danzi_file (file : option str) : gmap str str :=
  match file with
  | None => ∅
  | Some text => foldl load_danzi_line ∅ (file_lines text)
  end.

(** One round of the loop of [load_stem_file], with its [parts[0][0]]. *)
Definition load_stem_line (data : gmap str str) (line : str) : result (gmap str str) :=
  match split_ws (strip line) with
  | p0 :: full_code :: _ =>
      char ← char0 p0;
      Ok (match data !! char with
          | None => <[char := full_code]> data
          | Some _ => data
          end)
  | _ => Ok data
  end.

Fixpoint load_stem_lines (data : gmap str str) (lines : list str)
  : result (gmap str str) :=
  match lines with
  | [] => Ok data
  | line :: rest => data' ← load_stem_line data line; load_stem_lines data' rest
  end.

(** What [load_stem_file] finds at the path of stem.txt, for a path that
    is absent or a file that can be opened and read: no file; bytes that
    are valid UTF-8, with the text they decode to; or bytes that are not,
    with the lines that iterating the file yields before the decoder
    reaches them and raises. *)
Inductive stem_file :=
| no_file
| utf8_text (text : str)
| not_utf8 (lines_before : list str).

Definition load_stem_file (file : stem_file) : result (gmap str str) :=
  match file with
  | no_file => Ok ∅
  | utf8_text text => load_stem_lines ∅ (file_lines text)
  | not_utf8 lines_before =>
      _ ← load_stem_lines ∅ lines_before; Raise UnicodeDecodeError
  end.

(** The code and the words a line of ciku.txt gives. *)
Definition ciku_pair (line : str) : option (str * list str) :=
  match split_ws (strip line) with
  | code :: w :: ws => Some (code, w :: ws)
  | _ => None
  end.
End character_files.

(** ** The entries of one line of an imported file *)

Section import_analyzer_lines.
Context {U : UnicodeData}.

(** The entries [decode_line] adds for a line under the code_first
    format, as a function of the line alone. *)
Definition code_first_entries (d : delimiter_kind) (line : str) : list (str * str) :=
  match split_on (separator d) line with
  | code :: term :: terms =>
      if is_code code then (fun t => (t, code)) <$> (term :: terms) else []
  | _ => []
  end.

(** A line with more than one word after its first field. *)
Definition several_terms (d : delimiter_kind) (line : str) : bool :=
  (2 <? length (split_on (separator d) line))%nat.
End import_analyzer_lines.

(** ** export_rime_dict *)

(** [str(weight)]: the decimal digits, after a minus sign below zero. *)
Definition str_of_int (z : Z) : str := lit (NilZero.string_of_int (Z.to_int z)).

(** The line of one word: the word, the code and the weight and, under a
    one-letter code, the stem of the word when the stem table has it. *)
Definition export_line (stem_data : gmap str str) (code word : str) (weight : Z) : str :=
  let line_parts := [word; code; str_of_int weight] in
  let line_parts :=
    if (length code =? 1)%nat then
      match stem_data !! word with
      | Some stem => line_parts ++ [stem]
      | None => line_parts
      end
    else line_parts in
  join [9] line_parts ++ [10].

(** One round of the loop over the words of a code: the lines so far and
    the weight. *)
Definition export_word (stem_data : gmap str str) (code : str)
    (acc : list str * Z) (word : str) : list str * Z :=
  let '(export_lines, weight) := acc in
  (export_lines ++ [export_line stem_data code word weight], (weight - 10)%Z).

(** One round of the loop over the sorted items. *)
Definition export_item (stem_data : gmap str str) (export_lines : list str)
    (x : str * list str) : list str :=
  let '(code, words) := x in
  (foldl (export_word stem_data code) (export_lines, 1100000%Z) words).1.

(** The lines [export_rime_dict] writes.  [head_file] is the text of the
    head file, [None] when it does not exist; [current_time] is the
    formatted time of the export. *)
Definition export_rime_dict (ciku_structured : gmap str (list str))
    (stem_data : gmap str str) (head_file : option str) (current_time : str)
  : list str :=
  let export_lines := match head_file with
                      | Some text => file_lines text
                      | None => []
                      end in
  let export_lines :=
    export_lines ++ [[35; 32; 23548; 20986; 26102; 38388; 65306] ++ current_time ++ [10]] in
  foldl (export_item stem_data) export_lines (sorted_items ciku_structured).

(** ** The rules of the specification *)

(** The first [n] letters of a code. *)
Definition first_letters (n : nat) (code : str) : str := take n code.

(** The truncation table, on the codes of the characters of a word. *)
Definition truncation_rule (code : list str) : option str :=
  match code with
  | [] => None
  | [c0] => Some c0
  | [c0; c1] => Some (first_letters 2 c0 ++ first_letters 2 c1)
  | [c0; c1; c2] =>
      Some (first_letters 1 c0 ++ first_letters 1 c1 ++ first_letters 2 c2)
  | [c0; c1; c2; c3] =>
      Some (first_letters 1 c0 ++ first_letters 1 c1 ++ first_letters 1 c2
            ++ first_letters 1 c3)
  | c0 :: c1 :: c2 :: c3 :: rest =>
      Some (first_letters 1 c0 ++ first_letters 1 c1 ++ first_letters 1 c2
            ++ first_letters 1 (default [] (last rest)))
  end.

(** A character-code table of the data model: every code has a letter. *)
Definition codes_nonempty (danzi : gmap str str) : Prop :=
  ∀ char code, danzi !! char = Some code → code ≠ [].

(** The invariant of the word dictionary: no word twice under one code. *)
Definition no_duplicates (ciku_structured : gmap str (list str)) : Prop :=
  ∀ code words, ciku_structured !! code = Some words → NoDup words.

(** A token of the dictionary file: not empty, no white space. *)
Definition token {U : UnicodeData} (s : str) : Prop :=
  s ≠ [] ∧ Forall (fun c => ch_isspace c = false) s.

(** A well-formed item of the dictionary file: a code and a non-empty
    list of words, all tokens. *)
Definition item_ok {U : UnicodeData} (x : str * list str) : Prop :=
  token x.1 ∧ x.2 ≠ [] ∧ Forall token x.2.

(** A string made of lowercase alphabetic characters only. *)
Definition lowercase_letters {U : UnicodeData} (s : str) : Prop :=
  s ≠ [] ∧ Forall (fun c => ch_isalpha c = true ∧ ch_islower c = true) s.

(** The same test as a boolean: the "code-like" token of the
    specification. *)
Definition code_like {U : UnicodeData} (s : str) : bool :=
  negb (bool_decide (s = [])) && forallb (fun c => ch_isalpha c && ch_islower c) s.

(** The vote of one sampled line in the specification: for a line of two
    fields or more, one vote for code_first if field 0 is code-like and
    field 1 is not, one vote for word_first if field 1 is code-like and
    field 0 is not. *)
Definition spec_vote {U : UnicodeData} (d : delimiter_kind) (votes : nat * nat)
    (line : str) : nat * nat :=
  let '(code_first_votes, word_first_votes) := votes in
  match split_on (separator d) line with
  | field0 :: field1 :: _ =>
      if code_like field0 && negb (code_like field1)
      then (S code_first_votes, word_first_votes)
      else if code_like field1 && negb (code_like field0)
           then (code_first_votes, S word_first_votes)
           else votes
  | _ => votes
  end.

(** The votes of the specification over the sample, the first 100 lines. *)
Definition spec_count_votes {U : UnicodeData} (d : delimiter_kind) (lines : list str)
  : nat * nat :=
  foldl (spec_vote d) (0%nat, 0%nat) (take 100 lines).

(** * Properties *)

(** ** generate_word_code *)

Lemma scan_word_codes word danzi :
  (scan_word word danzi).1 = omap (fun char => danzi !! [char]) word.
Proof.
  induction word as [|char rest IH]; simpl; [done|].
  destruct (scan_word rest danzi) as [cs ms]; simpl in *.
  destruct (danzi !! [char]); simpl; rewrite IH; reflexivity.
Qed.

Lemma scan_word_missing word danzi :
  (scan_word word danzi).2
  = (fun char => [char]) <$> filter (fun char => danzi !! [char] = None) word.
Proof.
  induction word as [|char rest IH]; simpl; [done|].
  destruct (scan_word rest danzi) as [cs ms]; simpl in *.
  rewrite filter_cons. destruct (danzi !! [char]) eqn:E; simpl; [done|].
  by rewrite IH.
Qed.

Lemma scan_word_length word danzi :
  (length (scan_word word danzi).1 + length (scan_word word danzi).2)%nat = length word.
Proof.
  induction word as [|char rest IH]; simpl; [done|].
  destruct (scan_word rest danzi) as [cs ms]; simpl in *.
  destruct (danzi !! [char]); simpl; lia.
Qed.

Lemma scan_word_resolved word danzi code :
  Forall2 (fun char c => danzi !! [char] = Some c) word code →
  scan_word word danzi = (code, []).
Proof.
  induction 1 as [|char c rest cs Hc _ IH]; simpl; [done|].
  by rewrite IH, Hc.
Qed.

(** When no character is missing the codes are those of the characters of
    the word, one each. *)
Lemma scan_word_all_found word danzi cs :
  scan_word word danzi = (cs, []) →
  Forall2 (fun char c => danzi !! [char] = Some c) word cs.
Proof.
  revert cs. induction word as [|char rest IH]; simpl; intros cs.
  - intros [= <-]. constructor.
  - destruct (scan_word rest danzi) as [cs' ms] eqn:E.
    destruct (danzi !! [char]) eqn:Hc; intros [= <- ->].
    constructor; [done|]. by apply IH.
Qed.

(** C1: when every character of the word has a code in the character
    table (a table of the data model: no code is empty), generate returns
    the code of the truncation table and no missing character: the first 2
    letters of code[0] and of code[1] for 2 characters; the first letter of
    code[0] and of code[1] and the first 2 letters of code[2] for 3; the
    first letter of each of code[0..3] for 4; the first letters of code[0],
    code[1], code[2] and of the last code for more than 4. *)
Theorem generate_truncation_rule (danzi : gmap str str) (word : str) (code : list str) :
  codes_nonempty danzi →
  mapM (fun char => danzi !! [char]) word = Some code →
  generate_word_code word danzi = Ok (truncation_rule code, []).
Proof.
  intros Hne Hcode. apply mapM_Some in Hcode.
  assert (Hall : Forall (fun c => c ≠ []) code).
  { clear -Hne Hcode. induction Hcode as [|char c rest cs Hc _ IH]; constructor; eauto. }
  unfold generate_word_code. rewrite (scan_word_resolved _ _ _ Hcode). simpl.
  clear Hcode Hne.
  destruct code as [|c0 [|c1 [|c2 [|c3 [|c4 rest]]]]]; try done.
  - apply Forall_cons in Hall as [H0 Hall]. apply Forall_cons in Hall as [H1 Hall].
    apply Forall_cons in Hall as [H2 _].
    destruct c0, c1, c2; done.
  - apply Forall_cons in Hall as [H0 Hall]. apply Forall_cons in Hall as [H1 Hall].
    apply Forall_cons in Hall as [H2 Hall]. apply Forall_cons in Hall as [H3 _].
    destruct c0, c1, c2, c3; done.
  - apply Forall_cons in Hall as [H0 Hall]. apply Forall_cons in Hall as [H1 Hall].
    apply Forall_cons in Hall as [H2 Hall]. apply Forall_cons in Hall as [_ Hall].
    destruct c0 as [|x0 ?], c1 as [|x1 ?], c2 as [|x2 ?]; try done.
    cbn -[last]. unfold item_last.
    change (last (_ :: _ :: _ :: c3 :: c4 :: rest)) with (last (c4 :: rest)).
    destruct (last (c4 :: rest)) as [cl|] eqn:El.
    + assert (cl ≠ []) as Hcl.
      { apply (proj1 (Forall_forall _ _) Hall). by apply last_Some_elem_of. }
      destruct cl; done.
    + by apply last_None in El.
Qed.

Lemma generate_truncation_rule_witness :
  generate_word_code [30002; 20057; 19993; 19969; 25098]
    (<[[30002] := lit "abcd"]> (<[[20057] := lit "efgh"]> (<[[19993] := lit "ijkl"]>
      (<[[19969] := lit "mnop"]> (<[[25098] := lit "qrst"]> ∅)))))
  = Ok (Some (lit "aeiq"), []).
Proof.
  apply (generate_truncation_rule _ _
           [lit "abcd"; lit "efgh"; lit "ijkl"; lit "mnop"; lit "qrst"]).
  - intros char code.
    rewrite !lookup_insert, lookup_empty.
    repeat case_decide; intros [= <-]; done.
  - vm_compute. reflexivity.
Defined.

(** C2: when some character of the word has no code in the table,
    generate returns no code and the missing characters, all of them, one
    per occurrence, in the order of the word. *)
Theorem generate_reports_all_missing (danzi : gmap str str) (word : str) :
  (∃ char, char ∈ word ∧ danzi !! [char] = None) →
  generate_word_code word danzi
  = Ok (None, (fun char => [char]) <$> filter (fun char => danzi !! [char] = None) word).
Proof.
  intros (char & Hin & Hnone). unfold generate_word_code.
  pose proof (scan_word_missing word danzi) as Hm.
  destruct (scan_word word danzi) as [cs ms]; simpl in *.
  assert (ms ≠ []) as Hms.
  { rewrite Hm. intros Hnil. apply fmap_nil_inv in Hnil.
    assert (char ∈ filter (fun char => danzi !! [char] = None) word) as Hc
      by (apply list_elem_of_filter; done).
    rewrite Hnil in Hc. by apply not_elem_of_nil in Hc. }
  rewrite bool_decide_eq_false_2 by done. simpl. by rewrite Hm.
Qed.

Lemma generate_reports_all_missing_witness :
  generate_word_code [30002; 97; 20057; 97] (<[[97] := lit "gg"]> ∅)
  = Ok (None, [[30002]; [20057]]).
Proof.
  etrans.
  - apply (generate_reports_all_missing (<[[97] := lit "gg"]> ∅) [30002; 97; 20057; 97]).
    exists 30002. split; [apply list_elem_of_here | vm_compute; reflexivity].
  - vm_compute. reflexivity.
Defined.

(** A generated code comes with no missing character, and its codes are
    those of the characters of the word. *)
Lemma generate_success_inv word danzi code missing :
  generate_word_code word danzi = Ok (Some code, missing) →
  ∃ cs, Forall2 (fun char c => danzi !! [char] = Some c) word cs
        ∧ missing = []
        ∧ match cs with
          | [] => False
          | [c0] => code = c0
          | [c0; c1] => code = take 2 c0 ++ take 2 c1
          | [c0; c1; c2] => ∃ a b, code = a ++ b ++ take 2 c2
                                    ∧ length a = 1%nat ∧ length b = 1%nat
          | _ => length code = 4%nat
          end.
Proof.
  unfold generate_word_code. intros Hgen.
  destruct (scan_word word danzi) as [cs ms] eqn:Hscan.
  destruct (decide (ms = [])) as [->|Hms].
  2: { rewrite bool_decide_eq_false_2 in Hgen by done. simpl in Hgen. congruence. }
  apply scan_word_all_found in Hscan. exists cs. split; [done|].
  rewrite bool_decide_eq_true_2 in Hgen by done. simpl in Hgen.
  destruct cs as [|c0 [|c1 [|c2 [|c3 [|c4 rest]]]]]; simpl in Hgen.
  - done.
  - by injection Hgen as <- <-.
  - by injection Hgen as <- <-.
  - destruct c0 as [|x0 ?], c1 as [|x1 ?]; try done.
    injection Hgen as <- <-. split; [done|]. by exists [x0], [x1].
  - destruct c0 as [|x0 ?], c1 as [|x1 ?], c2 as [|x2 ?], c3 as [|x3 ?]; try done.
    by injection Hgen as <- <-.
  - destruct c0 as [|x0 ?], c1 as [|x1 ?], c2 as [|x2 ?]; try done.
    cbn -[last] in Hgen. unfold item_last in Hgen.
    destruct (last _) as [[|xl ?]|]; try done.
    by injection Hgen as <- <-.
Qed.

(** C3, as stated, fails: a one-character word whose character has a
    five-letter code gets that code. *)
Lemma generate_code_longer_than_4 :
  ¬ (∀ (word : str) (danzi : gmap str str) (code : str) (missing : list str),
       generate_word_code word danzi = Ok (Some code, missing) →
       (length code ≤ 4)%nat).
Proof.
  intros H.
  specialize (H [24037] (<[[24037] := lit "abcde"]> ∅) (lit "abcde") []).
  assert (length (lit "abcde") ≤ 4)%nat as Hle by (apply H; vm_compute; reflexivity).
  vm_compute in Hle. lia.
Qed.

(** C3, amended: whenever generate returns a code for a word of two or
    more characters, the code has at most 4 letters; for a word of one
    character the code is the character's code in the table, whole. *)
Theorem generate_code_length (word : str) (danzi : gmap str str)
    (code : str) (missing : list str) :
  generate_word_code word danzi = Ok (Some code, missing) →
  (length word = 1%nat → danzi !! word = Some code)
  ∧ (length word ≠ 1%nat → (length code ≤ 4)%nat).
Proof.
  intros Hgen. apply generate_success_inv in Hgen as (cs & Hcs & _ & Hcode).
  pose proof (Forall2_length _ _ _ Hcs) as Hlen.
  destruct cs as [|c0 [|c1 [|c2 [|c3 rest]]]]; simpl in Hlen.
  - done.
  - subst code. split; [|lia]. intros _.
    inversion Hcs as [|char c rest cs' Hc Hrest]; subst.
    by inversion Hrest; subst.
  - subst code. split; [lia|]. intros _.
    rewrite length_app, !length_take. lia.
  - destruct Hcode as (a & b & -> & Ha & Hb). split; [lia|]. intros _.
    rewrite !length_app, length_take. lia.
  - split; lia.
Qed.

Lemma generate_code_length_witness :
  (length [24037; 20316] = 1%nat →
   (<[[24037] := lit "abcde"]> (<[[20316] := lit "fghij"]> ∅) : gmap str str)
     !! [24037; 20316] = Some (lit "abfg"))
  ∧ (length [24037; 20316] ≠ 1%nat → (length (lit "abfg") ≤ 4)%nat).
Proof.
  apply (generate_code_length [24037; 20316]
           (<[[24037] := lit "abcde"]> (<[[20316] := lit "fghij"]> ∅))
           (lit "abfg") []).
  vm_compute. reflexivity.
Defined.

(** C10: for the empty word generate returns no code and an empty list
    of missing characters; every successful call returns an empty list of
    missing characters as well, so the list alone does not tell this
    failure from a success. *)
Theorem generate_empty_word (danzi : gmap str str) :
  generate_word_code [] danzi = Ok (None, [])
  ∧ ∀ (word code : str) (missing : list str),
      generate_word_code word danzi = Ok (Some code, missing) → missing = [].
Proof.
  split; [reflexivity|].
  intros word code missing Hgen.
  by apply generate_success_inv in Hgen as (cs & _ & -> & _).
Qed.

(** ** analyze_dict_file *)

Section import_analyzer_properties.
Context {U : UnicodeData}.

Lemma decode_word_first d lines struct acc :
  foldl (decode_line d word_first) (struct, acc) lines
  = (struct, acc ++ omap (word_first_entry d) lines).
Proof.
  revert acc. induction lines as [|line lines IH]; intros acc; simpl.
  - by rewrite app_nil_r.
  - unfold word_first_entry at 1.
    destruct (split_on (separator d) line) as [|p0 [|p1 rest]]; simpl; [apply IH..|].
    destruct rest; simpl; [|apply IH].
    destruct (is_code p1); simpl; [|apply IH].
    rewrite IH. by rewrite <- app_assoc.
Qed.

(** Under the word_first format the entries are those of the lines of
    exactly two fields whose second field passes [is_code], in line order. *)
Lemma analyze_word_first f a :
  analyze_dict_file (Some f) = Some a →
  format a = word_first →
  entries a = omap (word_first_entry (delimiter a)) (stripped_lines f).
Proof.
  unfold analyze_dict_file.
  destruct (stripped_lines f) as [|line0 lines] eqn:Hl; [done|].
  destruct (count_votes _ _) as [cf wf].
  destruct (wf <? cf)%nat.
  - destruct (foldl _ _ _). by intros [= <-].
  - destruct (cf <? wf)%nat; [|by intros [= <-]].
    rewrite decode_word_first. by intros [= <-].
Qed.

(** With the votes as the code counts them, on [is_code], a tie gives an
    analysis that check_for_updates reports as not recognised and skips,
    with the format "unknown" and no entry, and no analysis at all
    exactly when the file has no line besides blank ones. *)
Lemma analyze_own_votes_tie (f : list str) (n : nat) :
  count_votes (detect_delimiter (stripped_lines f)) (stripped_lines f) = (n, n) →
  skipped (analyze_dict_file (Some f)) = true
  ∧ (∀ a, analyze_dict_file (Some f) = Some a → format a = unknown ∧ entries a = [])
  ∧ (analyze_dict_file (Some f) = None ↔ stripped_lines f = []).
Proof.
  intros Hvotes. unfold analyze_dict_file.
  destruct (stripped_lines f) as [|line0 lines] eqn:Hl.
  - split; [done|]. split; [by intros a|done].
  - rewrite Hvotes. rewrite Nat.ltb_irrefl.
    split; [done|]. split; [by intros a [= <-]|]. split; done.
Qed.

(** The boolean test decides the property of the specification. *)
Lemma code_like_lowercase_letters (s : str) :
  code_like s = true ↔ lowercase_letters s.
Proof.
  unfold code_like, lowercase_letters.
  rewrite andb_true_iff, negb_true_iff, bool_decide_eq_false, forallb_forall.
  rewrite Forall_forall. split; intros [Hne Hall]; (split; [done|]).
  - intros c Hc. apply list_elem_of_In, Hall in Hc. by apply andb_true_iff in Hc.
  - intros c Hc. apply list_elem_of_In, Hall in Hc. by apply andb_true_iff.
Qed.

(** The code's votes are those of the specification on a sample where
    [is_code] and the code-like test agree on the first two fields of
    every line. *)
Lemma count_votes_spec (d : delimiter_kind) (lines : list str) :
  Forall (fun line =>
            match split_on (separator d) line with
            | field0 :: field1 :: _ =>
                is_code field0 = code_like field0 ∧ is_code field1 = code_like field1
            | _ => True
            end) (take 100 lines) →
  count_votes d lines = spec_count_votes d lines.
Proof.
  unfold count_votes, spec_count_votes. intros Hsample.
  generalize (0%nat, 0%nat).
  induction Hsample as [|line sample Hline _ IH]; intros votes; [done|].
  cbn [foldl]. assert (vote d votes line = spec_vote d votes line) as ->; [|apply IH].
  unfold vote, spec_vote. destruct votes as [cf wf].
  destruct (split_on (separator d) line) as [|field0 [|field1 rest]]; try done.
  destruct Hline as [-> ->].
  by destruct (code_like field0), (code_like field1).
Qed.
End import_analyzer_properties.

(** C4: fails on the code.  The file has one line: an ideograph, a blank,
    and an ideograph followed by the letter a.  Neither field is made of
    lowercase letters only, so the votes of the specification are 0 to 0,
    a tie; the code counts one vote for word_first, because [is_code]
    accepts the second field (an ideograph is alphabetic and has no
    case), reports the format word_first with an entry, and
    check_for_updates does not skip the file. *)
Theorem analyze_tie_guesses_word_first :
  let line := [35789; 32; 20013; 97; 10] in
  let lines := stripped_lines (U := latin_cjk) [line] in
  spec_count_votes (U := latin_cjk) (detect_delimiter lines) lines = (0%nat, 0%nat)
  ∧ count_votes (U := latin_cjk) (detect_delimiter lines) lines = (0%nat, 1%nat)
  ∧ analyze_dict_file (U := latin_cjk) (Some [line])
    = Some {| delimiter := space; format := word_first; structure := single;
              entries := [([35789], [20013; 97])] |}
  ∧ skipped (analyze_dict_file (U := latin_cjk) (Some [line])) = false.
Proof. repeat split; vm_compute; reflexivity. Qed.

(** C9: a file whose one line is an ideograph, a blank, and an ideograph
    followed by the letter a.  The line has exactly two fields, the format
    detected is word_first, and the line gives an entry whose code is the
    second field, although that field is not made of lowercase letters
    only: [is_code] asks for alphabetic characters of which none is
    uppercase and one is lowercase, and an ideograph has no case. *)
Theorem word_first_accepts_caseless_code :
  let line := [35789; 32; 20013; 97; 10] in
  split_on 32 (strip (U := latin_cjk) line) = [[35789]; [20013; 97]]
  ∧ analyze_dict_file (U := latin_cjk) (Some [line])
    = Some {| delimiter := space; format := word_first; structure := single;
              entries := [([35789], [20013; 97])] |}
  ∧ ¬ lowercase_letters (U := latin_cjk) [20013; 97].
Proof.
  split; [vm_compute; reflexivity|]. split; [vm_compute; reflexivity|].
  intros [_ Hall]. apply Forall_cons in Hall as [[_ Hlow] _].
  vm_compute in Hlow. discriminate.
Qed.

(** ** perform_upgrade: the character table *)

Lemma new_danzi_dict_snoc entries term code :
  new_danzi_dict (danzi_entries (entries ++ [(term, code)]))
  = if bool_decide (length term = 1%nat) && (1 <? length code)%nat
    then <[term := code]> (new_danzi_dict (danzi_entries entries))
    else new_danzi_dict (danzi_entries entries).
Proof.
  unfold new_danzi_dict, danzi_entries. rewrite filter_app, foldl_app.
  rewrite filter_cons, filter_nil. simpl.
  case_decide as Hlen.
  - rewrite bool_decide_eq_true_2 by done. done.
  - rewrite bool_decide_eq_false_2 by done. done.
Qed.

Lemma snoc_eq_middle {A} (before after l : list A) (x e : A) :
  l ++ [e] = before ++ x :: after →
  (after = [] ∧ l = before ∧ e = x)
  ∨ (∃ after', after = after' ++ [e] ∧ l = before ++ x :: after').
Proof.
  destruct after as [|y after _] using rev_ind; intros Heq.
  - left. apply app_inj_tail in Heq as [-> ->]. done.
  - right. exists after.
    replace (before ++ x :: after ++ [y]) with ((before ++ x :: after) ++ [y]) in Heq
      by (rewrite <- app_assoc; done).
    apply app_inj_tail in Heq as [-> ->]. done.
Qed.

Lemma new_danzi_dict_keys entries char :
  is_Some (new_danzi_dict (danzi_entries entries) !! char)
  ↔ ∃ code, (char, code) ∈ entries ∧ length char = 1%nat ∧ (1 < length code)%nat.
Proof.
  induction entries as [|[term code] entries IH] using rev_ind.
  - split; [by intros [? ?]|]. intros (code & Hin & _). by apply not_elem_of_nil in Hin.
  - rewrite new_danzi_dict_snoc.
    destruct (bool_decide (length term = 1%nat) && (1 <? length code)%nat) eqn:Hkeep.
    + apply andb_true_iff in Hkeep as [Hlen Hcode].
      apply bool_decide_eq_true_1 in Hlen. apply Nat.ltb_lt in Hcode.
      rewrite lookup_insert. case_decide as Heq.
      * subst char. split; [|by eauto]. intros _. exists code.
        split; [|done]. apply elem_of_app. right. apply list_elem_of_here.
      * rewrite IH. split; intros (c & Hin & Hl & Hc); exists c; (split; [|done]).
        -- apply elem_of_app. by left.
        -- apply elem_of_app in Hin as [Hin|Hin]; [done|].
           apply list_elem_of_singleton in Hin. congruence.
    + rewrite IH. split; intros (c & Hin & Hl & Hc); exists c; (split; [|done]).
      * apply elem_of_app. by left.
      * apply elem_of_app in Hin as [Hin|Hin]; [done|].
        apply list_elem_of_singleton in Hin. injection Hin as -> ->.
        rewrite bool_decide_eq_true_2 in Hkeep by done.
        apply Nat.ltb_lt in Hc. rewrite Hc in Hkeep. done.
Qed.

Lemma new_danzi_dict_last entries char code :
  new_danzi_dict (danzi_entries entries) !! char = Some code
  ↔ ∃ before after,
      entries = before ++ (char, code) :: after
      ∧ length char = 1%nat ∧ (1 < length code)%nat
      ∧ ∀ code', (char, code') ∈ after → ¬ (1 < length code')%nat.
Proof.
  induction entries as [|[term c] entries IH] using rev_ind.
  - split; [done|]. intros (before & after & Heq & _). by destruct before.
  - rewrite new_danzi_dict_snoc.
    destruct (bool_decide (length term = 1%nat) && (1 <? length c)%nat) eqn:Hkeep.
    + apply andb_true_iff in Hkeep as [Hlen Hcode].
      apply bool_decide_eq_true_1 in Hlen. apply Nat.ltb_lt in Hcode.
      rewrite lookup_insert. case_decide as Heq.
      * subst char. split.
        -- intros [= ->]. exists entries, []. split; [done|]. split; [done|].
           split; [done|]. intros code' Hin. by apply not_elem_of_nil in Hin.
        -- intros (before & after & Hsplit & _ & _ & Hafter).
           apply snoc_eq_middle in Hsplit as [(_ & _ & Hsame)|(after' & -> & _)].
           ++ congruence.
           ++ exfalso. apply (Hafter c); [|done].
              apply elem_of_app. right. apply list_elem_of_here.
      * rewrite IH. split.
        -- intros (before & after & -> & Hl & Hc & Hafter).
           exists before, (after ++ [(term, c)]).
           split; [by rewrite <- app_assoc|]. split; [done|]. split; [done|].
           intros code' Hin. apply elem_of_app in Hin as [Hin|Hin]; [by apply Hafter|].
           apply list_elem_of_singleton in Hin. congruence.
        -- intros (before & after & Hsplit & Hl & Hc & Hafter).
           apply snoc_eq_middle in Hsplit as [(_ & _ & Hsame)|(after' & -> & ->)].
           ++ congruence.
           ++ exists before, after'. split; [done|]. split; [done|]. split; [done|].
              intros code' Hin. apply Hafter. apply elem_of_app. by left.
    + rewrite IH. split.
      * intros (before & after & -> & Hl & Hc & Hafter).
        exists before, (after ++ [(term, c)]).
        split; [by rewrite <- app_assoc|]. split; [done|]. split; [done|].
        intros code' Hin. apply elem_of_app in Hin as [Hin|Hin]; [by apply Hafter|].
        apply list_elem_of_singleton in Hin. injection Hin as <- <-.
        rewrite bool_decide_eq_true_2 in Hkeep by done. simpl in Hkeep.
        by apply Nat.ltb_nlt in Hkeep.
      * intros (before & after & Hsplit & Hl & Hc & Hafter).
        apply snoc_eq_middle in Hsplit as [(_ & _ & Hsame)|(after' & -> & ->)].
        -- injection Hsame as -> ->.
           rewrite bool_decide_eq_true_2 in Hkeep by done.
           apply Nat.ltb_lt in Hc. rewrite Hc in Hkeep. done.
        -- exists before, after'. split; [done|]. split; [done|]. split; [done|].
           intros code' Hin. apply Hafter. apply elem_of_app. by left.
Qed.

(** C6: the character table built by the merge has as keys exactly the
    one-character words that the import pairs with a code of more than
    one letter, and it maps such a character to the code of the last of
    those entries in import order. *)
Theorem merge_character_table (entries : list (str * str)) :
  (∀ char, is_Some (new_danzi_dict (danzi_entries entries) !! char)
           ↔ ∃ code, (char, code) ∈ entries
                     ∧ length char = 1%nat ∧ (1 < length code)%nat)
  ∧ (∀ char code,
       new_danzi_dict (danzi_entries entries) !! char = Some code
       ↔ ∃ before after,
           entries = before ++ (char, code) :: after
           ∧ length char = 1%nat ∧ (1 < length code)%nat
           ∧ ∀ code', (char, code') ∈ after → ¬ (1 < length code')%nat).
Proof.
  split; [apply new_danzi_dict_keys | apply new_danzi_dict_last].
Qed.

(** ** The order on strings *)

Lemma str_leb_total a b : str_leb a b = true ∨ str_leb b a = true.
Proof.
  revert b. induction a as [|x a IH]; intros [|y b]; simpl; auto.
  destruct (N.lt_trichotomy x y) as [Hlt|[->|Hgt]].
  - left. apply N.ltb_lt in Hlt. by rewrite Hlt.
  - rewrite N.ltb_irrefl, N.eqb_refl. simpl. apply IH.
  - right. apply N.ltb_lt in Hgt. by rewrite Hgt.
Qed.

Lemma str_leb_trans a b c :
  str_leb a b = true → str_leb b c = true → str_leb a c = true.
Proof.
  revert b c. induction a as [|x a IH]; intros [|y b] [|z c]; simpl; try done.
  rewrite !orb_true_iff, !andb_true_iff, !N.ltb_lt, !N.eqb_eq.
  intros [Hxy|[-> Hab]] [Hyz|[-> Hbc]].
  - left. lia.
  - by left.
  - by left.
  - right. split; [done|]. by apply (IH b).
Qed.

#[export] Instance str_le_total : Total str_le.
Proof. intros a b. apply str_leb_total. Qed.

#[export] Instance str_le_trans : Transitive str_le.
Proof. intros a b c. apply str_leb_trans. Qed.

Lemma py_sort_perm l : py_sort l ≡ₚ l.
Proof. apply merge_sort_Permutation. Qed.

Lemma py_sort_sorted l : StronglySorted str_le (py_sort l).
Proof. apply StronglySorted_merge_sort; apply _. Qed.

(** ** perform_upgrade: the word dictionary *)

Lemma add_term_lookup d term code code' :
  add_term d (term, code) !! code'
  = if decide (code = code') then
      Some (match d !! code with
            | None => [term]
            | Some words => if decide (term ∈ words) then words else words ++ [term]
            end)
    else d !! code'.
Proof.
  unfold add_term. destruct (d !! code) as [words|] eqn:Hd; simpl.
  - rewrite Hd. simpl. destruct (decide (term ∈ words)) as [Hin|Hin].
    + rewrite bool_decide_eq_true_2 by done. case_decide; congruence.
    + rewrite bool_decide_eq_false_2 by done. by rewrite lookup_insert.
  - rewrite lookup_insert_eq. simpl.
    rewrite insert_insert_eq. by rewrite lookup_insert.
Qed.

(** The lists before sorting: distinct words, those the import pairs with
    the code, and a code is a key exactly when the import has it. *)
Lemma collected_words entries code :
  match foldl add_term ∅ entries !! code with
  | None => ∀ word, (word, code) ∉ entries
  | Some words => NoDup words ∧ ∀ word, word ∈ words ↔ (word, code) ∈ entries
  end.
Proof.
  induction entries as [|[term c] entries IH] using rev_ind.
  - simpl. rewrite lookup_empty. intros word. apply not_elem_of_nil.
  - rewrite foldl_snoc, add_term_lookup.
    destruct (decide (c = code)) as [->|Hne].
    + destruct (foldl add_term ∅ entries !! code) as [words|].
      * destruct IH as [Hnd Hin]. destruct (decide (term ∈ words)) as [Hterm|Hterm].
        -- split; [done|]. intros word. rewrite Hin, elem_of_app, list_elem_of_singleton.
           split; [by left|]. intros [?|[= -> ]]; [done|]. by apply Hin.
        -- split.
           ++ apply NoDup_app. split; [done|]. split; [|apply NoDup_singleton].
              intros x Hx Hx'. apply list_elem_of_singleton in Hx'. by subst.
           ++ intros word. rewrite !elem_of_app, !list_elem_of_singleton, Hin.
              split; intros [?|?]; [by left|right; congruence|by left|right; congruence].
      * split; [apply NoDup_singleton|]. intros word.
        rewrite elem_of_app, !list_elem_of_singleton. split.
        -- intros ->. by right.
        -- intros [Hin|[= ->]]; [by apply IH in Hin|done].
    + destruct (foldl add_term ∅ entries !! code) as [words|].
      * destruct IH as [Hnd Hin]. split; [done|]. intros word.
        rewrite Hin, elem_of_app, list_elem_of_singleton.
        split; [by left|]. intros [?|[= _ ?]]; done.
      * intros word. rewrite elem_of_app, list_elem_of_singleton.
        intros [Hin|[= _ ?]]; [by apply IH in Hin|done].
Qed.

(** C5: the word dictionary built by the merge has a code as key exactly
    when the import has an entry with that code, and maps it to the words
    the import pairs with it, each once, in ascending order; the import of
    the pair (ab, xy) twice gives the one word ab under xy. *)
Theorem merge_word_dictionary (entries : list (str * str)) (code : str) :
  match new_ciku_structured entries !! code with
  | None => ∀ word, (word, code) ∉ entries
  | Some words =>
      NoDup words ∧ StronglySorted str_le words
      ∧ ∀ word, word ∈ words ↔ (word, code) ∈ entries
  end
  ∧ new_ciku_structured [(lit "ab", lit "xy"); (lit "ab", lit "xy")] !! lit "xy"
    = Some [lit "ab"].
Proof.
  split; [|vm_compute; reflexivity].
  unfold new_ciku_structured. rewrite lookup_fmap.
  pose proof (collected_words entries code) as H.
  destruct (foldl add_term ∅ entries !! code) as [words|]; simpl; [|done].
  destruct H as [Hnd Hin]. split; [by rewrite py_sort_perm|].
  split; [apply py_sort_sorted|].
  intros word. by rewrite py_sort_perm.
Qed.

(** ** The invariant of the word dictionary *)

Lemma store_word_no_duplicates ciku code word :
  no_duplicates ciku → no_duplicates (store_word ciku code word).
Proof.
  intros Hinv code' words'. unfold store_word.
  destruct (ciku !! code) as [words|] eqn:Hc.
  - case_bool_decide as Hin; [apply Hinv|].
    rewrite lookup_insert. case_decide; [|apply Hinv]. intros [= <-].
    apply NoDup_app. split; [by eapply Hinv|]. split; [|apply NoDup_singleton].
    intros x Hx Hx'. apply list_elem_of_singleton in Hx'. by subst.
  - rewrite lookup_insert. case_decide; [|apply Hinv]. intros [= <-].
    apply NoDup_singleton.
Qed.

Lemma delete_word_no_duplicates ciku code del_idx :
  no_duplicates ciku → no_duplicates (delete_word ciku code del_idx).
Proof.
  intros Hinv code' words'. unfold delete_word.
  destruct (ciku !! code) as [word_list|] eqn:Hc; [|apply Hinv].
  case_bool_decide; [|apply Hinv].
  assert (NoDup (delete (Z.to_nat del_idx) word_list)) as Hnd.
  { eapply sublist_NoDup; [by eapply Hinv|apply sublist_delete]. }
  destruct (delete (Z.to_nat del_idx) word_list) as [|w l].
  - rewrite lookup_delete. case_decide; [done|apply Hinv].
  - rewrite lookup_insert. case_decide; [|apply Hinv]. by intros [= <-].
Qed.

Lemma move_word_no_duplicates ciku code old_idx new_idx :
  no_duplicates ciku → no_duplicates (move_word ciku code old_idx new_idx).
Proof.
  intros Hinv code' words'. unfold move_word.
  destruct (ciku !! code) as [word_list|] eqn:Hc; [|apply Hinv].
  destruct (_ && _); [|apply Hinv].
  destruct (word_list !! Z.to_nat old_idx) as [w|] eqn:Hw; [|apply Hinv].
  rewrite lookup_insert. case_decide; [|apply Hinv]. intros [= <-].
  rewrite <- Permutation_middle, take_drop, <- (delete_Permutation _ _ _ Hw).
  by eapply Hinv.
Qed.

Lemma new_ciku_structured_no_duplicates entries :
  no_duplicates (new_ciku_structured entries).
Proof.
  intros code words Hc. unfold new_ciku_structured in Hc.
  rewrite lookup_fmap in Hc.
  pose proof (collected_words entries code) as H.
  destruct (foldl add_term ∅ entries !! code) as [ws|]; [|done].
  injection Hc as <-. rewrite py_sort_perm. apply H.
Qed.

(** C7: batch entry on an empty dictionary, with a batch file that has
    the same two-character word on two lines.  Both lines are processed:
    the set of known words is taken once, before the loop, and the second
    line appends the word again to the list of its code.  The dictionary
    had no duplicate before and has one after. *)
Theorem batch_entry_repeats_word :
  let danzi : gmap str str := <[[30002] := lit "ab"]> (<[[20057] := lit "cd"]> ∅) in
  let word := [30002; 20057] in
  ∃ st, batch_entry_mode (U := latin_cjk) ∅ danzi [] [word ++ [10]; word ++ [10]] = Ok st
        ∧ b_ciku st !! lit "abcd" = Some [word; word]
        ∧ b_new_word_count st = 2%nat
        ∧ no_duplicates ∅
        ∧ ¬ no_duplicates (b_ciku st).
Proof.
  eexists. split; [vm_compute; reflexivity|].
  assert (Hdup : (<[lit "abcd" := [[30002; 20057]; [30002; 20057]]]> ∅
                    : gmap str (list str)) !! lit "abcd"
                 = Some [[30002; 20057]; [30002; 20057]])
    by (vm_compute; reflexivity).
  split; [exact Hdup|]. split; [reflexivity|]. split.
  - intros code words. by rewrite lookup_empty.
  - intros Hinv. apply Hinv in Hdup.
    apply NoDup_cons in Hdup as [Hnotin _]. apply Hnotin, list_elem_of_here.
Qed.

(** ** The word dictionary file: writing, then loading *)

Lemma universal_newlines_id text :
  Forall (fun c => c ≠ 13) text → universal_newlines text = text.
Proof.
  induction 1 as [|c text Hc _ IH]; simpl; [done|].
  apply N.eqb_neq in Hc. by rewrite Hc, IH.
Qed.

Lemma lines_of_line body rest :
  Forall (fun c => c ≠ 10) body →
  lines_of (body ++ 10 :: rest) = (body ++ [10]) :: lines_of rest.
Proof.
  induction 1 as [|c body Hc _ IH]; simpl; [done|].
  apply N.eqb_neq in Hc. by rewrite Hc, IH.
Qed.

Lemma lines_of_concat (ls : list str) :
  Forall (fun l => ∃ body, l = body ++ [10] ∧ Forall (fun c => c ≠ 10) body) ls →
  lines_of (concat ls) = ls.
Proof.
  induction 1 as [|l ls (body & -> & Hbody) _ IH]; simpl; [done|].
  rewrite <- app_assoc. simpl. by rewrite lines_of_line, IH.
Qed.

Lemma join_cons sep w w' ws :
  join sep (w :: w' :: ws) = w ++ sep ++ join sep (w' :: ws).
Proof. done. Qed.

Lemma foldl_insert_items (items : list (str * list str)) :
  foldl (fun d x => <[x.1 := x.2]> d) (∅ : gmap str (list str)) items
  = list_to_map (reverse items).
Proof.
  induction items as [|x items IH] using rev_ind; [done|].
  by rewrite foldl_snoc, reverse_snoc, IH.
Qed.

(** The pairs are written in ascending order of their codes, all of
    them. *)
Lemma sorted_items_sorted (data : gmap str (list str)) :
  StronglySorted item_le (sorted_items data)
  ∧ sorted_items data ≡ₚ map_to_list data.
Proof.
  split; [|apply merge_sort_Permutation].
  apply StronglySorted_merge_sort.
  - intros x y z. apply str_leb_trans.
  - intros x y. apply str_leb_total.
Qed.

Section dictionary_file_properties.
Context {U : UnicodeData}.

Lemma lstrip_split s :
  ∃ blanks, s = blanks ++ lstrip s ∧ Forall (fun c => ch_isspace c = true) blanks.
Proof.
  induction s as [|c s (blanks & Hs & Hblanks)]; simpl.
  - by exists [].
  - destruct (ch_isspace c) eqn:Hc.
    + exists (c :: blanks). split; [simpl; congruence|by constructor].
    + by exists [].
Qed.

Lemma rstrip_split s :
  ∃ blanks, s = rstrip s ++ blanks ∧ Forall (fun c => ch_isspace c = true) blanks.
Proof.
  destruct (lstrip_split (reverse s)) as (blanks & Hs & Hblanks).
  exists (reverse blanks). split.
  - unfold rstrip. rewrite <- reverse_app, <- Hs. by rewrite reverse_involutive.
  - by apply Forall_reverse.
Qed.

Lemma split_ws_from_blank_end cur s c :
  ch_isspace c = true → split_ws_from cur (s ++ [c]) = split_ws_from cur s.
Proof.
  intros Hc. revert cur. induction s as [|x s IH]; intros cur; simpl.
  - rewrite Hc. by destruct cur.
  - destruct (ch_isspace x); [|apply IH]. destruct cur; rewrite IH; reflexivity.
Qed.

Lemma split_ws_from_blanks_end cur s blanks :
  Forall (fun c => ch_isspace c = true) blanks →
  split_ws_from cur (s ++ blanks) = split_ws_from cur s.
Proof.
  induction blanks as [|c blanks IH] using rev_ind; intros Hall.
  - by rewrite app_nil_r.
  - apply Forall_app in Hall as [Hblanks Hc]. apply Forall_cons in Hc as [Hc _].
    rewrite app_assoc, split_ws_from_blank_end by done. by apply IH.
Qed.

Lemma split_ws_blanks_start s blanks :
  Forall (fun c => ch_isspace c = true) blanks →
  split_ws (blanks ++ s) = split_ws s.
Proof.
  unfold split_ws. induction 1 as [|c blanks Hc _ IH]; simpl; [done|].
  by rewrite Hc.
Qed.

(** Splitting at white space does not see the white space at the ends. *)
Lemma split_ws_strip s : split_ws (strip s) = split_ws s.
Proof.
  unfold strip.
  destruct (lstrip_split s) as (b1 & Hs & Hb1).
  destruct (rstrip_split (lstrip s)) as (b2 & Hl & Hb2).
  rewrite Hs at 2. rewrite split_ws_blanks_start by done.
  rewrite Hl at 2. unfold split_ws. by rewrite split_ws_from_blanks_end.
Qed.

Lemma split_ws_from_run cur t rest :
  Forall (fun c => ch_isspace c = false) t →
  split_ws_from cur (t ++ rest) = split_ws_from (cur ++ t) rest.
Proof.
  intros Ht. revert cur. induction Ht as [|c t Hc _ IH]; intros cur; simpl.
  - by rewrite app_nil_r.
  - rewrite Hc, IH. by rewrite <- app_assoc.
Qed.

Lemma split_ws_from_token t c rest :
  token t → ch_isspace c = true →
  split_ws_from [] (t ++ c :: rest) = t :: split_ws_from [] rest.
Proof.
  intros [Hne Ht] Hc. rewrite split_ws_from_run by done. simpl.
  rewrite Hc. by destruct t.
Qed.

Lemma split_ws_join words :
  Forall token words → split_ws_from [] (join [32] words ++ [10]) = words.
Proof.
  induction 1 as [|w words Hw Hwords IH]; simpl.
  - by rewrite lf_isspace.
  - destruct words as [|w' ws].
    + rewrite split_ws_from_token by (done || apply lf_isspace). done.
    + rewrite <- !app_assoc. simpl.
      rewrite split_ws_from_token by (done || apply blank_isspace).
      f_equal. exact IH.
Qed.

Lemma token_plain s :
  token s → Forall (fun c => c ≠ 10 ∧ c ≠ 13) s.
Proof.
  intros [_ Hs]. eapply Forall_impl; [exact Hs|]. intros c Hc. simpl in Hc.
  split; intros ->.
  - by rewrite lf_isspace in Hc.
  - by rewrite cr_isspace in Hc.
Qed.

Lemma join_plain words :
  Forall token words → Forall (fun c => c ≠ 10 ∧ c ≠ 13) (join [32] words).
Proof.
  induction 1 as [|w words Hw Hwords IH]; [constructor|].
  destruct words as [|w' ws]; [by apply token_plain|].
  rewrite join_cons. apply Forall_app. split; [by apply token_plain|].
  apply Forall_app. split; [|done]. by repeat constructor.
Qed.

Lemma ciku_line_body x :
  item_ok x →
  ∃ body, ciku_line x = body ++ [10] ∧ Forall (fun c => c ≠ 10 ∧ c ≠ 13) body.
Proof.
  destruct x as [code words]. intros (Hcode & Hne & Hwords); simpl in *.
  destruct words as [|w ws]; [done|].
  exists (code ++ [32] ++ join [32] (w :: ws)). split.
  - by rewrite <- !app_assoc.
  - apply Forall_app. split; [by apply token_plain|].
    apply Forall_app. split; [by repeat constructor|by apply join_plain].
Qed.

Lemma load_line_ciku_line data x :
  item_ok x → load_line data (ciku_line x) = <[x.1 := x.2]> data.
Proof.
  destruct x as [code words]. intros (Hcode & Hne & Hwords); simpl in *.
  unfold load_line. rewrite split_ws_strip. unfold split_ws.
  destruct words as [|w ws]; [done|].
  change (code ++ [32] ++ join [32] (w :: ws) ++ [10])
    with (code ++ 32 :: (join [32] (w :: ws) ++ [10])).
  rewrite split_ws_from_token by (done || apply blank_isspace).
  by rewrite split_ws_join.
Qed.

Lemma foldl_load_lines data items :
  Forall item_ok items →
  foldl load_line data (ciku_line <$> items)
  = foldl (fun d x => <[x.1 := x.2]> d) data items.
Proof.
  intros Hitems. revert data.
  induction Hitems as [|x items Hx _ IH]; intros data; simpl; [done|].
  by rewrite load_line_ciku_line, IH.
Qed.

Lemma file_lines_written items :
  Forall item_ok items →
  file_lines (concat (ciku_line <$> items)) = ciku_line <$> items.
Proof.
  intros Hitems. unfold file_lines.
  rewrite universal_newlines_id.
  - apply lines_of_concat. apply Forall_fmap.
    eapply Forall_impl; [exact Hitems|]. intros x Hx. simpl.
    destruct (ciku_line_body x Hx) as (body & -> & Hbody).
    exists body. split; [done|]. eapply Forall_impl; [exact Hbody|]. by intros c [? ?].
  - apply Forall_concat. apply Forall_fmap.
    eapply Forall_impl; [exact Hitems|]. intros x Hx. simpl.
    destruct (ciku_line_body x Hx) as (body & -> & Hbody).
    apply Forall_app. split; [|by repeat constructor].
    eapply Forall_impl; [exact Hbody|]. by intros c [? ?].
Qed.

(** C8: for a dictionary whose codes and words are non-empty and free of
    white space and whose lists are non-empty, loading the text that
    write_ciku_structured writes gives the dictionary back: the same
    codes, each with the same list of words in the same order. *)
Theorem write_then_load (data : gmap str (list str)) :
  (∀ code words, data !! code = Some words →
                 token code ∧ words ≠ [] ∧ Forall token words) →
  load_ciku_structured (Some (write_ciku_structured data)) = data.
Proof.
  intros Hok. unfold load_ciku_structured, write_ciku_structured.
  assert (Hperm : sorted_items data ≡ₚ map_to_list data)
    by apply merge_sort_Permutation.
  assert (Hitems : Forall item_ok (sorted_items data)).
  { apply Forall_forall. intros [code words] Hin. rewrite Hperm in Hin.
    apply elem_of_map_to_list in Hin. by apply Hok. }
  rewrite file_lines_written, foldl_load_lines, foldl_insert_items by done.
  rewrite <- (list_to_map_to_list data) at 2.
  apply list_to_map_proper.
  - rewrite fmap_reverse, reverse_Permutation, Hperm.
    apply NoDup_fst_map_to_list.
  - by rewrite reverse_Permutation.
Qed.
End dictionary_file_properties.

Lemma write_then_load_witness :
  load_ciku_structured (U := latin_cjk)
    (Some (write_ciku_structured
             (<[lit "gg" := [[24037; 20316]; [24037]]]> (<[lit "a" := [[24037]]]> ∅))))
  = <[lit "gg" := [[24037; 20316]; [24037]]]> (<[lit "a" := [[24037]]]> ∅).
Proof.
  apply (write_then_load (U := latin_cjk)).
  intros code words.
  rewrite !lookup_insert, lookup_empty.
  repeat case_decide; intros [= <-]; subst;
    (split; [split; [done|by repeat constructor]|]);
    (split; [done|]); repeat constructor; done.
Defined.

(** * Further properties *)

(** ** generate_word_code: exceptions and what the code depends on *)

Lemma scan_word_app w1 w2 danzi :
  scan_word (w1 ++ w2) danzi
  = ((scan_word w1 danzi).1 ++ (scan_word w2 danzi).1,
     (scan_word w1 danzi).2 ++ (scan_word w2 danzi).2).
Proof.
  induction w1 as [|char w1 IH]; simpl.
  - by destruct (scan_word w2 danzi).
  - rewrite IH. destruct (scan_word w1 danzi) as [cs ms]; simpl.
    by destruct (danzi !! [char]).
Qed.

Lemma scan_word_ext word danzi1 danzi2 :
  (∀ char, char ∈ word → danzi1 !! [char] = danzi2 !! [char]) →
  scan_word word danzi1 = scan_word word danzi2.
Proof.
  induction word as [|char rest IH]; intros Hagree; simpl; [done|].
  rewrite IH by (intros c Hc; apply Hagree; by right).
  rewrite (Hagree char) by left. done.
Qed.

Lemma resolved_all_found (word : str) (danzi : gmap str str) (cs : list str) :
  Forall2 (fun char c => danzi !! [char] = Some c) word cs →
  ∀ char, char ∈ word → is_Some (danzi !! [char]).
Proof.
  induction 1 as [|char c' rest cs' Hc _ IH]; intros ch Hin.
  - by apply elem_of_nil in Hin.
  - apply elem_of_cons in Hin as [->|Hin]; [by eexists|by apply IH].
Qed.

Lemma resolved_code_source (word : str) (danzi : gmap str str) (cs : list str) (c : str) :
  Forall2 (fun char c => danzi !! [char] = Some c) word cs →
  c ∈ cs → ∃ char, char ∈ word ∧ danzi !! [char] = Some c.
Proof.
  induction 1 as [|char c' rest cs' Hc _ IH]; intros Hin.
  - by apply elem_of_nil in Hin.
  - apply elem_of_cons in Hin as [->|Hin].
    + exists char. split; [left|done].
    + destruct (IH Hin) as (ch & Hch & Hl). exists ch. split; [by right|done].
Qed.

(** The only exception of generate is the IndexError of [code[0]] on an
    empty code: it needs a word of at least three characters, all in the
    table, one of them with the empty string as its code. *)
Theorem generate_raises_on_empty_code (word : str) (danzi : gmap str str) (e : exn) :
  generate_word_code word danzi = Raise e →
  e = IndexError
  ∧ (3 ≤ length word)%nat
  ∧ (∀ char, char ∈ word → is_Some (danzi !! [char]))
  ∧ ∃ char, char ∈ word ∧ danzi !! [char] = Some [].
Proof.
  unfold generate_word_code. intros Hgen.
  destruct (scan_word word danzi) as [cs ms] eqn:Hscan.
  destruct (decide (ms = [])) as [->|Hms].
  2: { rewrite bool_decide_eq_false_2 in Hgen by done. done. }
  apply scan_word_all_found in Hscan.
  pose proof (Forall2_length _ _ _ Hscan) as Hlen.
  pose proof (resolved_all_found _ _ _ Hscan) as Hall.
  pose proof (resolved_code_source _ _ _ [] Hscan) as Hsrc.
  rewrite bool_decide_eq_true_2 in Hgen by done. simpl in Hgen.
  destruct cs as [|c0 [|c1 [|c2 [|c3 [|c4 rest]]]]]; simpl in Hgen, Hlen;
    try discriminate.
  - destruct c0, c1; simpl in Hgen; try discriminate; injection Hgen as <-;
      (split; [done|]); (split; [lia|]); (split; [done|]);
      apply Hsrc;
      first [assumption
            | by repeat first [apply list_elem_of_here | apply list_elem_of_further]].
  - destruct c0, c1, c2, c3; simpl in Hgen; try discriminate; injection Hgen as <-;
      (split; [done|]); (split; [lia|]); (split; [done|]);
      apply Hsrc;
      first [assumption
            | by repeat first [apply list_elem_of_here | apply list_elem_of_further]].
  - assert (Hlast : ∃ cl, last (c0 :: c1 :: c2 :: c3 :: c4 :: rest) = Some cl).
    { destruct (last (c0 :: c1 :: c2 :: c3 :: c4 :: rest)) eqn:El; [by eexists|].
      by apply last_None in El. }
    destruct Hlast as [cl Hcl].
    assert (cl ∈ c0 :: c1 :: c2 :: c3 :: c4 :: rest) as Hclin
      by (by apply last_Some_elem_of).
    unfold item_last in Hgen. rewrite Hcl in Hgen.
    destruct c0, c1, c2, cl; cbn in Hgen; try discriminate; injection Hgen as <-;
      (split; [done|]); (split; [lia|]); (split; [done|]);
      apply Hsrc;
      first [assumption
            | by repeat first [apply list_elem_of_here | apply list_elem_of_further]].
Qed.

Lemma generate_raises_on_empty_code_witness :
  IndexError = IndexError
  ∧ (3 ≤ length [24037; 20316; 24037]%N)%nat
  ∧ (∀ char, char ∈ [24037; 20316; 24037] →
       is_Some ((<[[24037] := lit "a"]> (<[[20316] := []]> ∅) : gmap str str) !! [char]))
  ∧ ∃ char, char ∈ [24037; 20316; 24037]
            ∧ (<[[24037] := lit "a"]> (<[[20316] := []]> ∅) : gmap str str) !! [char]
              = Some [].
Proof.
  apply (generate_raises_on_empty_code [24037; 20316; 24037]
           (<[[24037] := lit "a"]> (<[[20316] := []]> ∅)) IndexError).
  vm_compute. reflexivity.
Defined.

(** Generate looks at the table only at the characters of the word. *)
Theorem generate_depends_on_word_characters (word : str) (danzi1 danzi2 : gmap str str) :
  (∀ char, char ∈ word → danzi1 !! [char] = danzi2 !! [char]) →
  generate_word_code word danzi1 = generate_word_code word danzi2.
Proof.
  intros Hagree. unfold generate_word_code.
  by rewrite (scan_word_ext _ _ _ Hagree).
Qed.

Lemma generate_depends_on_word_characters_witness :
  generate_word_code [24037; 20316] (<[[24037] := lit "ab"]> (<[[20316] := lit "cd"]> ∅))
  = generate_word_code [24037; 20316]
      (<[[30002] := lit "zz"]> (<[[24037] := lit "ab"]> (<[[20316] := lit "cd"]> ∅))).
Proof.
  apply generate_depends_on_word_characters.
  intros char Hin. rewrite (lookup_insert_ne _ [30002]); [done|].
  intros [= <-]. rewrite !elem_of_cons, elem_of_nil in Hin.
  by destruct Hin as [?|[?|?]].
Defined.

Lemma scan_word_found (word : str) (danzi : gmap str str) :
  (∀ char, char ∈ word → is_Some (danzi !! [char])) →
  ∃ cs, scan_word word danzi = (cs, []).
Proof.
  induction word as [|char rest IH]; intros Hall; simpl; [by eexists|].
  destruct IH as [cs ->]; [intros c Hc; apply Hall; by right|].
  destruct (Hall char) as [code ->]; [left|]. by eexists.
Qed.

(** A word of more than four characters gets the code of the
    four-character word made of its first three characters and its last
    one: the characters in between only have to be in the table. *)
Theorem generate_long_word (danzi : gmap str str) (c0 c1 c2 cl : N) (mid : str) :
  (∀ char, char ∈ mid → is_Some (danzi !! [char])) →
  generate_word_code (c0 :: c1 :: c2 :: mid ++ [cl]) danzi
  = generate_word_code [c0; c1; c2; cl] danzi.
Proof.
  intros Hmid. destruct (scan_word_found mid danzi Hmid) as [kmid Hscan].
  unfold generate_word_code.
  change (c0 :: c1 :: c2 :: mid ++ [cl]) with ([c0; c1; c2] ++ mid ++ [cl]).
  change [c0; c1; c2; cl] with ([c0; c1; c2] ++ [cl]).
  rewrite !scan_word_app, Hscan.
  pose proof (scan_word_length [c0; c1; c2] danzi) as Hpre.
  pose proof (scan_word_length [cl] danzi) as Hpost.
  destruct (scan_word [c0; c1; c2] danzi) as [pk pm].
  destruct (scan_word [cl] danzi) as [qk qm].
  cbn [fst snd app] in *.
  destruct (decide (pm ++ qm = [])) as [Hnil|Hne].
  - apply app_eq_nil in Hnil as [-> ->]. simpl in Hpre, Hpost.
    destruct pk as [|k0 [|k1 [|k2 [|? ?]]]]; simpl in Hpre; try lia.
    destruct qk as [|kl [|? ?]]; simpl in Hpost; try lia.
    destruct kmid as [|k kmid]; [done|].
    cbn -[last]. rewrite length_app, Nat.add_1_r. cbn -[last]. unfold item_last.
    replace (last (k0 :: k1 :: k2 :: k :: kmid ++ [kl])) with (Some kl); [done|].
    symmetry. apply (last_snoc kl (k0 :: k1 :: k2 :: k :: kmid)).
  - by rewrite !bool_decide_eq_false_2 by done.
Qed.

Lemma generate_long_word_witness :
  generate_word_code (30002 :: 20057 :: 19993 :: [19969; 19969] ++ [25098])
    (<[[30002] := lit "abcd"]> (<[[20057] := lit "efgh"]> (<[[19993] := lit "ijkl"]>
      (<[[19969] := lit "mnop"]> (<[[25098] := lit "qrst"]> ∅)))))
  = generate_word_code [30002; 20057; 19993; 25098]
    (<[[30002] := lit "abcd"]> (<[[20057] := lit "efgh"]> (<[[19993] := lit "ijkl"]>
      (<[[19969] := lit "mnop"]> (<[[25098] := lit "qrst"]> ∅))))).
Proof.
  apply generate_long_word.
  intros char Hin. rewrite !elem_of_cons, elem_of_nil in Hin.
  destruct Hin as [->|[->|[]]]; vm_compute; by eexists.
Defined.

(** ** entry_mode and edit_mode: storing, moving, deleting *)

(** Storing a word that is already under the code changes nothing. *)
Theorem store_word_idempotent (ciku : gmap str (list str)) (code word : str) :
  store_word (store_word ciku code word) code word = store_word ciku code word.
Proof.
  unfold store_word. destruct (ciku !! code) as [words|] eqn:Hc.
  - destruct (decide (word ∈ words)) as [Hin|Hin].
    + rewrite (bool_decide_eq_true_2 _ Hin), Hc. by rewrite bool_decide_eq_true_2.
    + rewrite (bool_decide_eq_false_2 _ Hin), lookup_insert_eq.
      rewrite bool_decide_eq_true_2; [done|].
      apply elem_of_app. right. apply list_elem_of_here.
  - rewrite lookup_insert_eq. rewrite bool_decide_eq_true_2; [done|].
    apply list_elem_of_here.
Qed.

(** After storing, the word is under the code, the words that were
    there come first in their order, and no other code is touched. *)
Theorem store_word_appends (ciku : gmap str (list str)) (code word : str) :
  (∃ words, store_word ciku code word !! code = Some words
            ∧ word ∈ words
            ∧ default [] (ciku !! code) `prefix_of` words)
  ∧ ∀ code', code' ≠ code → store_word ciku code word !! code' = ciku !! code'.
Proof.
  unfold store_word. destruct (ciku !! code) as [words|] eqn:Hc; simpl.
  - destruct (decide (word ∈ words)) as [Hin|Hin].
    + rewrite (bool_decide_eq_true_2 _ Hin). split; [|done].
      exists words. by rewrite Hc.
    + rewrite (bool_decide_eq_false_2 _ Hin). split.
      * exists (words ++ [word]). rewrite lookup_insert_eq. split; [done|].
        split; [apply elem_of_app; right; apply list_elem_of_here|].
        by apply prefix_app_r.
      * intros code' Hne. by rewrite lookup_insert_ne.
  - split.
    + exists [word]. rewrite lookup_insert_eq. split; [done|].
      split; [apply list_elem_of_here|apply prefix_nil].
    + intros code' Hne. by rewrite lookup_insert_ne.
Qed.

Lemma move_list_spec (l : list str) (i j : nat) (w : str) :
  l !! i = Some w → (j < length l)%nat →
  let moved := take j (delete i l) ++ w :: drop j (delete i l) in
  length moved = length l
  ∧ moved !! j = Some w
  ∧ delete j moved = delete i l.
Proof.
  intros Hw Hj moved.
  assert (Hi : (i < length l)%nat) by (by eapply lookup_lt_Some).
  assert (Hlen : length (delete i l) = (length l - 1)%nat)
    by (apply length_delete; eauto).
  assert (Htake : length (take j (delete i l)) = j)
    by (apply length_take_le; lia).
  split; [|split].
  - unfold moved. rewrite length_app. simpl. rewrite Htake, length_drop. lia.
  - unfold moved. by apply list_lookup_middle.
  - unfold moved. rewrite <- Htake at 1. rewrite delete_middle. apply take_drop.
Qed.

Lemma move_list_back (l : list str) (i : nat) (w : str) :
  l !! i = Some w → take i (delete i l) ++ w :: drop i (delete i l) = l.
Proof.
  intros Hw.
  assert (Hi : length (take i l) = i).
  { apply length_take_le. apply lookup_lt_Some in Hw. lia. }
  rewrite delete_take_drop.
  rewrite take_app_length', drop_app_length' by done.
  by apply take_drop_middle.
Qed.

(** An accepted move puts the word at the new position and leaves the
    other words in their order; the list keeps its length. *)
Theorem move_word_lands (ciku : gmap str (list str)) (code : str)
    (word_list : list str) (old_idx new_idx : Z) :
  ciku !! code = Some word_list →
  (0 ≤ old_idx < Z.of_nat (length word_list))%Z →
  (0 ≤ new_idx < Z.of_nat (length word_list))%Z →
  ∃ moved, move_word ciku code old_idx new_idx = <[code := moved]> ciku
           ∧ length moved = length word_list
           ∧ moved !! Z.to_nat new_idx = word_list !! Z.to_nat old_idx
           ∧ delete (Z.to_nat new_idx) moved = delete (Z.to_nat old_idx) word_list.
Proof.
  intros Hc Hold Hnew. unfold move_word. rewrite Hc.
  rewrite !bool_decide_eq_true_2 by done. simpl.
  destruct (word_list !! Z.to_nat old_idx) as [w|] eqn:Hw.
  2: { apply lookup_ge_None in Hw. lia. }
  destruct (move_list_spec word_list (Z.to_nat old_idx) (Z.to_nat new_idx) w Hw)
    as (Hlen & Hat & Hrest); [lia|].
  eexists. split; [done|]. by repeat split.
Qed.

(** Moving a word and then moving it back gives the dictionary back. *)
Theorem move_word_back (ciku : gmap str (list str)) (code : str)
    (word_list : list str) (old_idx new_idx : Z) :
  ciku !! code = Some word_list →
  (0 ≤ old_idx < Z.of_nat (length word_list))%Z →
  (0 ≤ new_idx < Z.of_nat (length word_list))%Z →
  move_word (move_word ciku code old_idx new_idx) code new_idx old_idx = ciku.
Proof.
  intros Hc Hold Hnew.
  destruct (word_list !! Z.to_nat old_idx) as [w|] eqn:Hw.
  2: { apply lookup_ge_None in Hw. lia. }
  destruct (move_list_spec word_list (Z.to_nat old_idx) (Z.to_nat new_idx) w Hw)
    as (Hlen & Hat & Hrest); [lia|].
  unfold move_word at 2. rewrite Hc, !bool_decide_eq_true_2 by done. simpl.
  rewrite Hw. unfold move_word. rewrite lookup_insert_eq, Hlen.
  rewrite !bool_decide_eq_true_2 by done. simpl.
  rewrite Hat, Hrest, insert_insert_eq, (move_list_back _ _ _ Hw).
  by apply insert_id.
Qed.

Lemma move_word_lands_witness :
  ∃ moved,
    move_word (<[lit "xy" := [lit "a"; lit "b"; lit "c"]]> ∅) (lit "xy") 0 2
    = <[lit "xy" := moved]> (<[lit "xy" := [lit "a"; lit "b"; lit "c"]]> ∅)
    ∧ length moved = length [lit "a"; lit "b"; lit "c"]
    ∧ moved !! Z.to_nat 2 = [lit "a"; lit "b"; lit "c"] !! Z.to_nat 0
    ∧ delete (Z.to_nat 2) moved = delete (Z.to_nat 0) [lit "a"; lit "b"; lit "c"].
Proof.
  apply (move_word_lands (<[lit "xy" := [lit "a"; lit "b"; lit "c"]]> ∅) (lit "xy")
           [lit "a"; lit "b"; lit "c"] 0 2).
  - apply lookup_insert_eq.
  - simpl. lia.
  - simpl. lia.
Defined.

Lemma move_word_back_witness :
  move_word (move_word (<[lit "xy" := [lit "a"; lit "b"; lit "c"]]> ∅) (lit "xy") 0 2)
    (lit "xy") 2 0
  = <[lit "xy" := [lit "a"; lit "b"; lit "c"]]> ∅.
Proof.
  apply (move_word_back (<[lit "xy" := [lit "a"; lit "b"; lit "c"]]> ∅) (lit "xy")
           [lit "a"; lit "b"; lit "c"] 0 2).
  - apply lookup_insert_eq.
  - simpl. lia.
  - simpl. lia.
Defined.

(** Storing a word as entry_mode does, deleting a word and moving a word
    as edit_mode does keep the lists free of duplicates. *)
Theorem edits_keep_no_duplicates (ciku : gmap str (list str)) (code word : str)
    (i j : Z) :
  no_duplicates ciku →
  no_duplicates (store_word ciku code word)
  ∧ no_duplicates (delete_word ciku code i)
  ∧ no_duplicates (move_word ciku code i j).
Proof.
  intros Hinv. split; [|split].
  - by apply store_word_no_duplicates.
  - by apply delete_word_no_duplicates.
  - by apply move_word_no_duplicates.
Qed.

Lemma edits_keep_no_duplicates_witness :
  no_duplicates (store_word (<[lit "xy" := [lit "a"; lit "b"]]> ∅) (lit "xy") (lit "b"))
  ∧ no_duplicates (delete_word (<[lit "xy" := [lit "a"; lit "b"]]> ∅) (lit "xy") 0)
  ∧ no_duplicates (move_word (<[lit "xy" := [lit "a"; lit "b"]]> ∅) (lit "xy") 0 1).
Proof.
  apply edits_keep_no_duplicates.
  intros code words. rewrite lookup_insert, lookup_empty.
  case_decide; intros [= <-].
  apply (bool_decide_eq_true_1 (NoDup [lit "a"; lit "b"])). vm_compute. reflexivity.
Defined.

(** ** Loading danzi.txt, ciku.txt and stem.txt *)

Section first_wins.
Context {A : Type}.

(** In [list_to_map] the first pair of a key gives its value. *)
Lemma list_to_map_first (pairs : list (str * A)) (k : str) (v : A) :
  (list_to_map pairs : gmap str A) !! k = Some v
  ↔ ∃ before after, pairs = before ++ (k, v) :: after ∧ k ∉ before.*1.
Proof.
  induction pairs as [|[k0 v0] pairs IH]; simpl.
  - rewrite lookup_empty. split; [done|]. intros (before & after & Heq & _).
    by destruct before.
  - rewrite lookup_insert. case_decide as Hk.
    + subst k0. split.
      * intros [= ->]. exists [], pairs. split; [done|]. apply not_elem_of_nil.
      * intros (before & after & Heq & Hnot). destruct before as [|[k1 v1] before].
        -- by injection Heq as -> _.
        -- injection Heq as -> _ _. exfalso. apply Hnot. simpl. left.
    + rewrite IH. split.
      * intros (before & after & -> & Hnot). exists ((k0, v0) :: before), after.
        split; [done|]. simpl. rewrite not_elem_of_cons. done.
      * intros (before & after & Heq & Hnot). destruct before as [|[k1 v1] before].
        -- injection Heq as -> _ _. done.
        -- injection Heq as -> -> ->. exists before, after. split; [done|].
           simpl in Hnot. rewrite not_elem_of_cons in Hnot. tauto.
Qed.

(** In [list_to_map] of the reversed list the last pair of a key gives
    its value. *)
Lemma list_to_map_last (pairs : list (str * A)) (k : str) (v : A) :
  (list_to_map (reverse pairs) : gmap str A) !! k = Some v
  ↔ ∃ before after, pairs = before ++ (k, v) :: after ∧ k ∉ after.*1.
Proof.
  rewrite list_to_map_first. split.
  - intros (b & a & Heq & Hnot). exists (reverse a), (reverse b).
    split.
    + rewrite <- (reverse_involutive pairs), Heq.
      by rewrite reverse_app, reverse_cons, <- app_assoc.
    + by rewrite fmap_reverse, elem_of_reverse.
  - intros (b & a & -> & Hnot). exists (reverse a), (reverse b).
    split.
    + by rewrite reverse_app, reverse_cons, <- app_assoc.
    + by rewrite fmap_reverse, elem_of_reverse.
Qed.
End first_wins.

Section loading_properties.
Context {U : UnicodeData}.

Lemma load_danzi_line_union (data : gmap str str) (line : str) :
  load_danzi_line data line
  = data ∪ (list_to_map (option_list (danzi_pair line)) : gmap str str).
Proof.
  unfold load_danzi_line, danzi_pair.
  destruct (split_ws (strip line)) as [|char [|code rest]]; simpl;
    try (by rewrite (right_id ∅ (∪))).
  destruct (data !! char) as [c|] eqn:Hc.
  - apply map_eq. intros k. symmetry. destruct (decide (k = char)) as [->|Hne].
    + by rewrite (lookup_union_Some_l _ _ _ _ Hc).
    + rewrite lookup_union_l; [done|]. by rewrite lookup_insert_ne.
  - rewrite insert_empty. by apply insert_union_singleton_r.
Qed.

Lemma foldl_load_danzi_lines (lines : list str) :
  foldl load_danzi_line ∅ lines = list_to_map (omap danzi_pair lines).
Proof.
  induction lines as [|line lines IH] using rev_ind; [done|].
  rewrite foldl_snoc, omap_app, list_to_map_app, IH, load_danzi_line_union.
  simpl. by destruct (danzi_pair line).
Qed.

Lemma load_line_union (data : gmap str (list str)) (line : str) :
  load_line data line
  = (list_to_map (option_list (ciku_pair line)) : gmap str (list str)) ∪ data.
Proof.
  unfold load_line, ciku_pair.
  destruct (split_ws (strip line)) as [|code [|w ws]]; simpl;
    try (by rewrite (left_id ∅ (∪))).
  rewrite insert_empty. by rewrite insert_union_singleton_l.
Qed.

Lemma foldl_load_ciku_lines (lines : list str) :
  foldl load_line ∅ lines = list_to_map (reverse (omap ciku_pair lines)).
Proof.
  induction lines as [|line lines IH] using rev_ind; [done|].
  rewrite foldl_snoc, omap_app, reverse_app, list_to_map_app, IH, load_line_union.
  simpl. by destruct (ciku_pair line).
Qed.

(** Loading danzi.txt: a character gets the code of the first line that
    has it as first field (among the lines of at least two fields). *)
Theorem load_danzi_first_wins (text char code : str) :
  load_danzi_file (Some text) !! char = Some code
  ↔ ∃ before after,
      omap danzi_pair (file_lines text) = before ++ (char, code) :: after
      ∧ char ∉ before.*1.
Proof.
  unfold load_danzi_file. rewrite foldl_load_danzi_lines. apply list_to_map_first.
Qed.

(** Loading ciku.txt: a code gets the words of the last line that has
    it as first field (among the lines of at least two fields). *)
Theorem load_ciku_last_wins (text code : str) (words : list str) :
  load_ciku_structured (Some text) !! code = Some words
  ↔ ∃ before after,
      omap ciku_pair (file_lines text) = before ++ (code, words) :: after
      ∧ code ∉ after.*1.
Proof.
  unfold load_ciku_structured. rewrite foldl_load_ciku_lines. apply list_to_map_last.
Qed.
End loading_properties.

Section stem_file_properties.
Context {U : UnicodeData}.

Lemma split_ws_from_nonempty (cur s : str) :
  Forall (fun field => field ≠ []) (split_ws_from cur s).
Proof.
  revert cur. induction s as [|c s IH]; intros cur; simpl.
  - destruct cur; [constructor|by repeat constructor].
  - destruct (ch_isspace c); [|apply IH].
    destruct cur; [apply IH|]. constructor; [done|apply IH].
Qed.

Lemma load_stem_line_ok (data : gmap str str) (line : str) :
  (∀ char full_code, data !! char = Some full_code → length char = 1%nat) →
  ∃ data', load_stem_line data line = Ok data'
           ∧ ∀ char full_code, data' !! char = Some full_code → length char = 1%nat.
Proof.
  intros Hkeys. unfold load_stem_line.
  pose proof (split_ws_from_nonempty [] (strip line)) as Hne.
  fold (split_ws (strip line)) in Hne.
  destruct (split_ws (strip line)) as [|p0 [|full_code rest]];
    [by exists data..|].
  apply Forall_cons in Hne as [Hp0 _]. destruct p0 as [|c p0]; [done|]. simpl.
  destruct (data !! [c]) eqn:Hc; [by exists data|].
  eexists. split; [done|]. intros char fc. rewrite lookup_insert.
  case_decide; [by intros _; subst|apply Hkeys].
Qed.

Lemma load_stem_lines_ok (lines : list str) :
  ∀ data : gmap str str,
    (∀ char full_code, data !! char = Some full_code → length char = 1%nat) →
    ∃ data', load_stem_lines data lines = Ok data'
             ∧ ∀ char full_code, data' !! char = Some full_code → length char = 1%nat.
Proof.
  induction lines as [|line lines IH]; intros data Hkeys; simpl.
  - by exists data.
  - destruct (load_stem_line_ok data line Hkeys) as (data1 & -> & Hkeys1).
    simpl. by apply IH.
Qed.

(** On a stem.txt that is absent or can be opened and read,
    [load_stem_file] raises no IndexError: the [parts[0][0]] is always
    there, a field of [split()] has a first character.  It raises exactly
    when the file is not valid UTF-8, and then the UnicodeDecodeError of
    the iteration, whatever the lines before the invalid bytes are; on a
    file that is valid UTF-8, and on no file, it returns a table, and
    every key of the table is a single character. *)
Theorem load_stem_file_keys (file : stem_file) :
  match load_stem_file file with
  | Ok stem_data =>
      (∀ lines_before, file ≠ not_utf8 lines_before)
      ∧ ∀ char full_code, stem_data !! char = Some full_code → length char = 1%nat
  | Raise e => e = UnicodeDecodeError ∧ ∃ lines_before, file = not_utf8 lines_before
  end.
Proof.
  assert (Hempty : ∀ char full_code,
            (∅ : gmap str str) !! char = Some full_code → length char = 1%nat).
  { intros char fc. by rewrite lookup_empty. }
  destruct file as [|text|lines_before]; simpl.
  - done.
  - destruct (load_stem_lines_ok (file_lines text) ∅ Hempty) as (data & -> & Hkeys).
    done.
  - destruct (load_stem_lines_ok lines_before ∅ Hempty) as (data & -> & _).
    simpl. split; [done|by exists lines_before].
Qed.
End stem_file_properties.

(** ** danzi.txt: writing, appending, loading *)

Lemma file_lines_concat (ls : list str) :
  Forall (fun l => ∃ body, l = body ++ [10]
                           ∧ Forall (fun c => c ≠ 10 ∧ c ≠ 13) body) ls →
  file_lines (concat ls) = ls.
Proof.
  intros Hls. unfold file_lines. rewrite universal_newlines_id.
  - apply lines_of_concat. eapply Forall_impl; [exact Hls|].
    intros l (body & -> & Hbody). exists body. split; [done|].
    eapply Forall_impl; [exact Hbody|]. by intros c [? ?].
  - apply Forall_concat. eapply Forall_impl; [exact Hls|].
    intros l (body & -> & Hbody). apply Forall_app. split; [|by repeat constructor].
    eapply Forall_impl; [exact Hbody|]. by intros c [? ?].
Qed.

Lemma omap_fmap_inverse {A B} (f : B → option A) (g : A → B) (l : list A) :
  Forall (fun x => f (g x) = Some x) l → omap f (g <$> l) = l.
Proof.
  induction 1 as [|x l Hx _ IH]; [done|]. cbn. rewrite Hx. f_equal. exact IH.
Qed.

Section danzi_file_properties.
Context {U : UnicodeData}.

Lemma danzi_line_body (x : str * str) :
  token x.1 → token x.2 →
  ∃ body, danzi_line x = body ++ [10] ∧ Forall (fun c => c ≠ 10 ∧ c ≠ 13) body.
Proof.
  intros H1 H2. exists (x.1 ++ [32] ++ x.2). split.
  - unfold danzi_line. by rewrite <- !app_assoc.
  - apply Forall_app. split; [by apply token_plain|].
    apply Forall_app. split; [by repeat constructor|by apply token_plain].
Qed.

Lemma split_ws_danzi_line (x : str * str) :
  token x.1 → token x.2 → split_ws (strip (danzi_line x)) = [x.1; x.2].
Proof.
  intros H1 H2. rewrite split_ws_strip. unfold split_ws, danzi_line.
  change (x.1 ++ [32] ++ x.2 ++ [10]) with (x.1 ++ 32 :: (x.2 ++ [10])).
  rewrite split_ws_from_token by (done || apply blank_isspace).
  rewrite split_ws_from_token by (done || apply lf_isspace). done.
Qed.

(** The danzi.txt that perform_upgrade writes loads back as the table it
    was written from, when its characters and codes are free of white
    space. *)
Theorem danzi_write_then_load (new_danzi_dict : gmap str str) :
  (∀ char code, new_danzi_dict !! char = Some code → token char ∧ token code) →
  load_danzi_file (Some (danzi_file_text new_danzi_dict)) = new_danzi_dict.
Proof.
  intros Hok. unfold load_danzi_file, danzi_file_text.
  set (pairs := merge_sort pair_le (map_to_list new_danzi_dict)).
  assert (Hperm : pairs ≡ₚ map_to_list new_danzi_dict)
    by apply merge_sort_Permutation.
  assert (Hpairs : Forall (fun x => token x.1 ∧ token x.2) pairs).
  { apply Forall_forall. intros [char code] Hin. rewrite Hperm in Hin.
    apply elem_of_map_to_list in Hin. by apply Hok. }
  rewrite file_lines_concat.
  - rewrite foldl_load_danzi_lines, omap_fmap_inverse.
    + rewrite <- (list_to_map_to_list new_danzi_dict) at 1.
      apply list_to_map_proper; [|done].
      rewrite Hperm. apply NoDup_fst_map_to_list.
    + eapply Forall_impl; [exact Hpairs|]. intros x [H1 H2].
      unfold danzi_pair. rewrite split_ws_danzi_line by done. by destruct x.
  - apply Forall_fmap. eapply Forall_impl; [exact Hpairs|].
    intros x [H1 H2]. by apply danzi_line_body.
Qed.
End danzi_file_properties.

Lemma danzi_write_then_load_witness :
  load_danzi_file (U := latin_cjk)
    (Some (danzi_file_text (<[[24037] := lit "aaaa"]> (<[[20316] := lit "wthf"]> ∅))))
  = <[[24037] := lit "aaaa"]> (<[[20316] := lit "wthf"]> ∅).
Proof.
  apply (danzi_write_then_load (U := latin_cjk)).
  intros char code. rewrite !lookup_insert, lookup_empty.
  repeat case_decide; intros [= <-]; subst;
    split; (split; [done|by repeat constructor]).
Defined.

Lemma universal_newlines_complete (t s : str) :
  universal_newlines (t ++ 10 :: s)
  = universal_newlines (t ++ [10]) ++ universal_newlines s
  ∧ ∃ u, universal_newlines (t ++ [10]) = u ++ [10].
Proof.
  assert (Hgen : ∀ n (t : str), (length t ≤ n)%nat →
            universal_newlines (t ++ 10 :: s)
            = universal_newlines (t ++ [10]) ++ universal_newlines s
            ∧ ∃ u, universal_newlines (t ++ [10]) = u ++ [10]).
  { induction n as [|n IH]; intros t' Hlen.
    - destruct t'; [|simpl in Hlen; lia]. split; [done|]. by exists [].
    - destruct t' as [|c t']; [split; [done|by exists []]|].
      simpl in Hlen. simpl. destruct (c =? 13).
      + destruct t' as [|c' t'']; simpl.
        * split; [done|]. by exists [].
        * destruct (c' =? 10).
          -- destruct (IH t'') as [-> [u ->]]; [simpl in Hlen; lia|].
             split; [done|]. by exists (10 :: u).
          -- destruct (IH (c' :: t'')) as [Heq [u Hu]]; [simpl in *; lia|].
             simpl in Heq, Hu. rewrite Heq, Hu. split; [done|]. by exists (10 :: u).
      + destruct (IH t') as [-> [u ->]]; [lia|].
        split; [done|]. by exists (c :: u). }
  by apply (Hgen (length t)).
Qed.

Lemma lines_of_complete (u y : str) :
  lines_of (u ++ 10 :: y) = lines_of (u ++ [10]) ++ lines_of y.
Proof.
  induction u as [|c u IH]; simpl; [done|].
  destruct (c =? 10); [by rewrite IH|].
  rewrite IH. destruct (lines_of (u ++ [10])) eqn:Hl; [|done].
  exfalso. clear -Hl. induction u as [|c' u IHu]; simpl in Hl; [done|].
  destruct (c' =? 10); [done|]. by destruct (lines_of (u ++ [10])).
Qed.

Section danzi_append_properties.
Context {U : UnicodeData}.

Lemma file_lines_app (text rest : str) :
  (text = [] ∨ ∃ t, text = t ++ [10]) →
  file_lines (text ++ rest) = file_lines text ++ file_lines rest.
Proof.
  intros [->|[t ->]]; [done|].
  unfold file_lines. rewrite <- app_assoc. simpl.
  destruct (universal_newlines_complete t rest) as [-> [u ->]].
  rewrite <- app_assoc. simpl. by rewrite lines_of_complete.
Qed.

Lemma file_lines_one (body : str) :
  Forall (fun c => c ≠ 10 ∧ c ≠ 13) body → file_lines (body ++ [10]) = [body ++ [10]].
Proof.
  intros Hbody. pose proof (file_lines_concat [body ++ [10]]) as Hone.
  simpl in Hone. rewrite app_nil_r in Hone. apply Hone.
  constructor; [by exists body|constructor].
Qed.

Lemma split_ws_code_line (blanks code : str) :
  Forall (fun c => ch_isspace c = true) blanks → token code →
  split_ws (strip (blanks ++ code ++ [10])) = [code].
Proof.
  intros Hblanks Hcode. rewrite split_ws_strip, split_ws_blanks_start by done.
  unfold split_ws. by rewrite split_ws_from_token by (done || apply lf_isspace).
Qed.

Lemma load_danzi_line_code (data : gmap str str) (blanks code : str) :
  Forall (fun c => ch_isspace c = true) blanks → token code →
  load_danzi_line data (blanks ++ code ++ [10]) = data.
Proof.
  intros Hblanks Hcode. unfold load_danzi_line.
  by rewrite split_ws_code_line.
Qed.

Lemma load_danzi_line_newline (data : gmap str str) :
  load_danzi_line data [10] = data.
Proof.
  unfold load_danzi_line. rewrite split_ws_strip. unfold split_ws. simpl.
  by rewrite lf_isspace.
Qed.

(** Appending the line of a character and a code (a code free of white
    space) with [append_to_danzi_file] to a file that is absent, empty or
    ends with a line feed, and loading the file again.  When the
    character is a white-space character the appended line has one field
    only and is ignored: the table is the one of the file before.
    Otherwise a character the file did not have gets the appended code,
    and a character it had keeps its old code (the first line wins). *)
Theorem append_then_load (file : option str) (c : N) (code : str) :
  token code →
  (∀ text, file = Some text → text = [] ∨ ∃ t, text = t ++ [10]) →
  load_danzi_file (Some (append_to_danzi_file file [c] code))
  = if ch_isspace c then load_danzi_file file
    else match load_danzi_file file !! [c] with
         | Some _ => load_danzi_file file
         | None => <[[c] := code]> (load_danzi_file file)
         end.
Proof.
  intros Hcode Hfile.
  assert (Hplain : Forall (fun x => x ≠ 10 ∧ x ≠ 13) code) by by apply token_plain.
  assert (Hload : load_danzi_file (Some (append_to_danzi_file file [c] code))
                  = foldl load_danzi_line (load_danzi_file file)
                      (file_lines (c :: 32 :: code ++ [10]))).
  { unfold append_to_danzi_file, load_danzi_file. destruct file as [text|].
    - change (default [] (Some text)) with text.
      rewrite file_lines_app by by apply Hfile. by rewrite foldl_app.
    - done. }
  rewrite Hload. clear Hload. generalize (load_danzi_file file). intros data.
  assert (Hrest : file_lines (32 :: code ++ [10]) = [32 :: code ++ [10]]).
  { apply (file_lines_one (32 :: code)). by constructor. }
  destruct (decide (c = 10)) as [->|H10]; [|destruct (decide (c = 13)) as [->|H13]].
  - rewrite lf_isspace.
    change (10 :: 32 :: code ++ [10]) with ([10] ++ 32 :: code ++ [10]).
    rewrite (file_lines_app [10] (32 :: code ++ [10])) by (right; by exists []).
    rewrite Hrest. change (file_lines [10]) with [[10]]. simpl.
    rewrite load_danzi_line_newline.
    apply (load_danzi_line_code data [32] code); [|done].
    constructor; [apply blank_isspace|constructor].
  - rewrite cr_isspace.
    assert (file_lines (13 :: 32 :: code ++ [10]) = [[10]; 32 :: code ++ [10]]) as ->.
    { unfold file_lines in *. simpl. simpl in Hrest. by rewrite Hrest. }
    simpl. rewrite load_danzi_line_newline.
    apply (load_danzi_line_code data [32] code); [|done].
    constructor; [apply blank_isspace|constructor].
  - change (c :: 32 :: code ++ [10]) with ((c :: 32 :: code) ++ [10]).
    rewrite (file_lines_one (c :: 32 :: code)) by (constructor; [done|by constructor]).
    simpl. destruct (ch_isspace c) eqn:Hc.
    + apply (load_danzi_line_code data [c; 32] code); [|done].
      constructor; [done|]. constructor; [apply blank_isspace|constructor].
    + unfold load_danzi_line.
      rewrite (split_ws_danzi_line ([c], code));
        [|split; [done|by constructor]|done].
      simpl. by destruct (data !! [c]).
Qed.
End danzi_append_properties.

Lemma append_then_load_witness :
  load_danzi_file (U := latin_cjk)
    (Some (append_to_danzi_file (Some ([24037; 32] ++ lit "aaaa" ++ [10]))
             [32] (lit "zz")))
  = if ch_isspace (UnicodeData := latin_cjk) 32
    then load_danzi_file (U := latin_cjk) (Some ([24037; 32] ++ lit "aaaa" ++ [10]))
    else match load_danzi_file (U := latin_cjk)
                 (Some ([24037; 32] ++ lit "aaaa" ++ [10])) !! [32] with
         | Some _ => load_danzi_file (U := latin_cjk)
                       (Some ([24037; 32] ++ lit "aaaa" ++ [10]))
         | None => <[[32] := lit "zz"]>
                     (load_danzi_file (U := latin_cjk)
                        (Some ([24037; 32] ++ lit "aaaa" ++ [10])))
         end.
Proof.
  apply (append_then_load (U := latin_cjk)).
  - split; [done|by repeat constructor].
  - intros text [= <-]. right. by exists ([24037; 32] ++ lit "aaaa").
Defined.

(** ** analyze_dict_file: the entries and the sample *)

Lemma analyze_word_first_witness :
  entries {| delimiter := space; format := word_first; structure := single;
             entries := [([35789], lit "ab")] |}
  = omap (word_first_entry (U := latin_cjk) space)
      (stripped_lines (U := latin_cjk) [[35789; 32] ++ lit "ab" ++ [10]]).
Proof.
  apply (analyze_word_first (U := latin_cjk) [[35789; 32] ++ lit "ab" ++ [10]]
           {| delimiter := space; format := word_first; structure := single;
              entries := [([35789], lit "ab")] |}).
  - vm_compute. reflexivity.
  - reflexivity.
Defined.

Section analyzer_entries.
Context {U : UnicodeData}.

Lemma decode_code_first d lines struct acc :
  foldl (decode_line d code_first) (struct, acc) lines
  = (if existsb (several_terms d) lines then multi else struct,
     acc ++ concat (code_first_entries d <$> lines)).
Proof.
  revert struct acc. induction lines as [|line lines IH]; intros struct acc; simpl.
  - by rewrite app_nil_r.
  - unfold code_first_entries at 1, several_terms at 1.
    destruct (split_on (separator d) line) as [|p0 [|p1 rest]] eqn:Hs; simpl;
      [apply IH..|].
    destruct rest as [|p2 rest]; simpl.
    + destruct (is_code p0); rewrite IH; simpl; [|done].
      by rewrite <- app_assoc.
    + destruct (is_code p0); rewrite IH; simpl.
      * rewrite <- app_assoc. by destruct (existsb (several_terms d) lines).
      * by destruct (existsb (several_terms d) lines).
Qed.
End analyzer_entries.

Lemma existsb_elem_of {A} (p : A → bool) (l : list A) :
  existsb p l = true ↔ ∃ x, x ∈ l ∧ p x = true.
Proof.
  rewrite existsb_exists. split; intros (x & Hin & Hp); exists x; split; try done;
    by apply list_elem_of_In.
Qed.

Section analyzer_formats.
Context {U : UnicodeData}.

(** Under the code_first format every line whose first field passes
    [is_code] gives one entry per further field, in order; and the
    structure is "multi" exactly when some line has more than two fields,
    whether or not that line gives entries. *)
Theorem analyze_code_first (f : list str) (a : analysis) :
  analyze_dict_file (Some f) = Some a →
  format a = code_first →
  entries a = concat (code_first_entries (delimiter a) <$> stripped_lines f)
  ∧ (structure a = multi
     ↔ ∃ line, line ∈ stripped_lines f ∧ several_terms (delimiter a) line = true).
Proof.
  unfold analyze_dict_file.
  destruct (stripped_lines f) as [|line0 lines] eqn:Hl; [done|].
  remember (line0 :: lines) as ls eqn:Hls. clear Hls Hl.
  destruct (count_votes _ _) as [cf wf].
  destruct (wf <? cf)%nat.
  - rewrite decode_code_first. intros Ha _. apply (inj Some) in Ha. subst a.
    cbn [entries structure delimiter]. split; [reflexivity|].
    rewrite <- existsb_elem_of.
    by destruct (existsb _ ls).
  - destruct (cf <? wf)%nat.
    + rewrite decode_word_first. by intros [= <-].
    + by intros [= <-].
Qed.

(** Whatever the format, the code of every entry passes [is_code]. *)
Theorem analyze_entries_have_codes (f : list str) (a : analysis) :
  analyze_dict_file (Some f) = Some a →
  Forall (fun e => is_code e.2 = true) (entries a).
Proof.
  unfold analyze_dict_file.
  destruct (stripped_lines f) as [|line0 lines]; [done|].
  remember (line0 :: lines) as ls eqn:Hls. clear Hls.
  destruct (count_votes _ _) as [cf wf].
  destruct (wf <? cf)%nat; [|destruct (cf <? wf)%nat].
  - rewrite decode_code_first. intros Ha. apply (inj Some) in Ha. subst a.
    cbn [entries app]. apply Forall_forall. intros [term code] Hin.
    apply list_elem_of_In, in_concat in Hin as (es & Hes & Hin).
    apply list_elem_of_In in Hes, Hin.
    apply list_elem_of_fmap in Hes as (line & -> & _).
    unfold code_first_entries in Hin.
    destruct (split_on _ line) as [|p0 [|p1 rest]];
      [by apply elem_of_nil in Hin..|].
    destruct (is_code p0) eqn:Hp0; [|by apply elem_of_nil in Hin].
    apply list_elem_of_fmap in Hin as (t & [= -> ->] & _). done.
  - rewrite decode_word_first. intros Ha. apply (inj Some) in Ha. subst a.
    cbn [entries app]. apply Forall_forall. intros [term code] Hin.
    apply list_elem_of_omap in Hin as (line & _ & Hline).
    unfold word_first_entry in Hline.
    destruct (split_on _ line) as [|p0 [|p1 [|? ?]]]; try done.
    destruct (is_code p1) eqn:Hp1; [|done]. by injection Hline as -> ->.
  - intros [= <-]. constructor.
Qed.
End analyzer_formats.

Lemma analyze_code_first_witness :
  let f := [lit "ab" ++ [9; 35789; 9; 20013; 10]; lit "cd" ++ [9; 30002; 10]] in
  let a := {| delimiter := tab; format := code_first; structure := multi;
              entries := [([35789], lit "ab"); ([20013], lit "ab");
                          ([30002], lit "cd")] |} in
  entries a
  = concat (code_first_entries (U := latin_cjk) (delimiter a)
              <$> stripped_lines (U := latin_cjk) f)
  ∧ (structure a = multi
     ↔ ∃ line, line ∈ stripped_lines (U := latin_cjk) f
               ∧ several_terms (delimiter a) line = true).
Proof.
  apply (analyze_code_first (U := latin_cjk)
           [lit "ab" ++ [9; 35789; 9; 20013; 10]; lit "cd" ++ [9; 30002; 10]]).
  - vm_compute. reflexivity.
  - reflexivity.
Defined.

Lemma analyze_entries_have_codes_witness :
  Forall (fun e => is_code (U := latin_cjk) e.2 = true)
    [([35789], lit "ab"); ([20013], lit "ab"); ([30002], lit "cd")].
Proof.
  apply (analyze_entries_have_codes (U := latin_cjk)
           [lit "ab" ++ [9; 35789; 9; 20013; 10]; lit "cd" ++ [9; 30002; 10]]
           {| delimiter := tab; format := code_first; structure := multi;
              entries := [([35789], lit "ab"); ([20013], lit "ab");
                          ([30002], lit "cd")] |}).
  vm_compute. reflexivity.
Defined.

Section analyzer_sample.
Context {U : UnicodeData}.

Lemma analyze_format_sample (f : list str) :
  (fun a => (delimiter a, format a)) <$> analyze_dict_file (Some f)
  = match take 100 (stripped_lines f) with
    | [] => None
    | sample =>
        let d := detect_delimiter sample in
        let '(cf, wf) := foldl (vote d) (0%nat, 0%nat) sample in
        Some (d, if (wf <? cf)%nat then code_first
                 else if (cf <? wf)%nat then word_first else unknown)
    end.
Proof.
  unfold analyze_dict_file, count_votes.
  destruct (stripped_lines f) as [|line0 lines]; [done|].
  change (take 100 (line0 :: lines)) with (line0 :: take 99 lines).
  cbv beta iota zeta.
  change (detect_delimiter (line0 :: take 99 lines))
    with (detect_delimiter (line0 :: lines)).
  generalize (detect_delimiter (line0 :: lines)). intros d.
  destruct (foldl (vote d) _ _) as [cf wf].
  destruct (wf <? cf)%nat; [|destruct (cf <? wf)%nat].
  - by destruct (foldl _ _ _).
  - by destruct (foldl _ _ _).
  - done.
Qed.

(** The delimiter and the format are decided by the first hundred
    non-blank lines: two files that agree on them get the same delimiter
    and the same format (or are both empty), whatever follows. *)
Theorem analyze_format_from_sample (f g : list str) :
  take 100 (stripped_lines f) = take 100 (stripped_lines g) →
  delimiter <$> analyze_dict_file (Some f) = delimiter <$> analyze_dict_file (Some g)
  ∧ format <$> analyze_dict_file (Some f) = format <$> analyze_dict_file (Some g).
Proof.
  intros Hsample.
  pose proof (analyze_format_sample f) as Hf.
  pose proof (analyze_format_sample g) as Hg.
  rewrite Hsample, <- Hg in Hf.
  destruct (analyze_dict_file (Some f)) as [a|], (analyze_dict_file (Some g)) as [b|];
    try done.
  cbn in Hf |- *. injection Hf as Hd Hfmt. by rewrite Hd, Hfmt.
Qed.
End analyzer_sample.

Lemma analyze_format_from_sample_witness :
  let line := lit "ab" ++ [9; 35789; 10] in
  let f := replicate 100 line ++ [[35789; 9] ++ lit "ab" ++ [10]] in
  let g := replicate 100 line ++ [lit "no tab"; lit "ab"] in
  delimiter <$> analyze_dict_file (U := latin_cjk) (Some f)
  = delimiter <$> analyze_dict_file (U := latin_cjk) (Some g)
  ∧ format <$> analyze_dict_file (U := latin_cjk) (Some f)
    = format <$> analyze_dict_file (U := latin_cjk) (Some g).
Proof.
  apply (analyze_format_from_sample (U := latin_cjk)).
  vm_compute. reflexivity.
Defined.

(** ** batch_entry_mode and the dialogue on missing characters *)

(** The characters generate reports as missing are not keys of the table. *)
Lemma generate_missing_absent (word : str) (danzi : gmap str str)
    (generated_code : option str) (missing_chars : list str) :
  generate_word_code word danzi = Ok (generated_code, missing_chars) →
  Forall (fun c => danzi !! c = None) missing_chars.
Proof.
  unfold generate_word_code. intros Hgen.
  pose proof (scan_word_missing word danzi) as Hms.
  destruct (scan_word word danzi) as [cs ms] eqn:Hscan. simpl in Hms.
  destruct (decide (ms = [])) as [->|Hne].
  - rewrite bool_decide_eq_true_2 in Hgen by done. simpl in Hgen.
    assert (missing_chars = []) as ->; [|constructor].
    destruct cs as [|c0 [|c1 [|c2 [|c3 [|c4 rest]]]]]; simpl in Hgen.
    + by injection Hgen.
    + by injection Hgen.
    + by injection Hgen.
    + destruct c0 as [|x0 ?], c1 as [|x1 ?]; try done. by injection Hgen.
    + destruct c0 as [|x0 ?], c1 as [|x1 ?], c2 as [|x2 ?], c3 as [|x3 ?]; try done.
      by injection Hgen.
    + destruct c0 as [|x0 ?], c1 as [|x1 ?], c2 as [|x2 ?]; try done.
      cbn -[last] in Hgen. unfold item_last in Hgen.
      destruct (last _) as [[|xl ?]|]; try done. by injection Hgen.
  - rewrite bool_decide_eq_false_2 in Hgen by done. simpl in Hgen.
    injection Hgen as _ <-. rewrite Hms.
    apply Forall_fmap, Forall_forall. intros char Hin.
    by apply list_elem_of_filter in Hin as [Hnone _].
Qed.

(** A code generated from a table is generated from every larger table. *)
Lemma generate_mono (word code : str) (danzi danzi' : gmap str str) :
  danzi ⊆ danzi' →
  generate_word_code word danzi = Ok (Some code, []) →
  generate_word_code word danzi' = Ok (Some code, []).
Proof.
  intros Hsub Hgen. rewrite <- Hgen.
  apply generate_success_inv in Hgen as (cs & Hcs & _).
  unfold generate_word_code. rewrite (scan_word_ext word danzi' danzi); [done|].
  intros char Hin.
  destruct (resolved_all_found _ _ _ Hcs char Hin) as [c Hc].
  rewrite Hc. by eapply lookup_weaken.
Qed.

Lemma resolve_missing_inv (word : str) (answers : list str) :
  ∀ (danzi : gmap str str) (generated_code : option str) (missing_chars : list str)
    (code' : option str) (danzi' : gmap str str) (answers' : list str),
    generate_word_code word danzi = Ok (generated_code, missing_chars) →
    resolve_missing word answers danzi generated_code missing_chars
    = Ok (code', danzi', answers') →
    danzi ⊆ danzi'
    ∧ answers' `suffix_of` answers
    ∧ (code' = None ∨ generate_word_code word danzi' = Ok (code', [])).
Proof.
  induction answers as [|new_char_code answers IH];
    intros danzi gc missing code' danzi' answers' Hgen Hres.
  - destruct missing as [|missing_char missing]; [|done].
    simpl in Hres. injection Hres as <- <- <-. split; [done|]. split; [done|by right].
  - destruct missing as [|missing_char missing].
    { simpl in Hres. injection Hres as <- <- <-. split; [done|]. split; [done|by right]. }
    pose proof (generate_missing_absent _ _ _ _ Hgen) as Habsent.
    apply Forall_cons in Habsent as [Habsent _].
    simpl in Hres. destruct (valid_char_code new_char_code).
    + destruct (generate_word_code word (<[missing_char:=new_char_code]> danzi))
        as [[gc1 missing1]|e] eqn:Hgen1; [|done].
      destruct (IH _ _ _ _ _ _ Hgen1 Hres) as (Hsub & Hsuf & Hcode).
      split; [|split; [by apply suffix_cons_r|done]].
      etrans; [|exact Hsub]. by apply insert_subseteq.
    + injection Hres as <- <- <-.
      split; [done|]. split; [by apply suffix_cons_r|by left].
Qed.

Lemma batch_word_inv (flat : gset str) (st st' : batch_state) (word : str) :
  batch_word flat st word = Ok st' →
  b_danzi st ⊆ b_danzi st'
  ∧ b_answers st' `suffix_of` b_answers st
  ∧ ((b_ciku st' = b_ciku st ∧ b_new_word_count st' = b_new_word_count st)
     ∨ (∃ code, (word ∉ flat)
          ∧ generate_word_code word (b_danzi st') = Ok (Some code, [])
          ∧ b_ciku st'
            = <[code := default [] (b_ciku st !! code) ++ [word]]> (b_ciku st)
          ∧ b_new_word_count st' = S (b_new_word_count st))).
Proof.
  unfold batch_word. destruct (decide (word ∈ flat)) as [Hin|Hnotin].
  { rewrite bool_decide_eq_true_2 by done. intros [= <-].
    split; [done|]. split; [done|by left]. }
  rewrite bool_decide_eq_false_2 by done.
  destruct (generate_word_code word (b_danzi st)) as [[gc missing]|e] eqn:Hgen;
    [|done].
  cbn [mbind result_bind fst snd].
  destruct (resolve_missing word (b_answers st) (b_danzi st) gc missing)
    as [[[gc' danzi'] answers']|e] eqn:Hres; [|done].
  cbn [mbind result_bind].
  destruct (resolve_missing_inv _ _ _ _ _ _ _ _ Hgen Hres) as (Hsub & Hsuf & Hcode).
  destruct gc' as [[|c code]|].
  - intros [= <-]. split; [done|]. split; [done|by left].
  - intros [= <-]. cbn [b_danzi b_answers b_ciku b_new_word_count].
    split; [done|]. split; [done|]. right. exists (c :: code).
    destruct Hcode as [|Hcode]; [done|].
    split; [done|]. split; [done|]. split; [|done].
    destruct (b_ciku st !! (c :: code)) as [words|] eqn:Hl; [by rewrite Hl|].
    rewrite lookup_insert_eq. by rewrite insert_insert_eq.
  - intros [= <-]. split; [done|]. split; [done|by left].
Qed.

Lemma batch_loop_inv (flat : gset str) (words_to_add : list str) :
  ∀ st st' : batch_state,
    batch_loop flat st words_to_add = Ok st' →
    b_danzi st ⊆ b_danzi st'
    ∧ b_answers st' `suffix_of` b_answers st
    ∧ (∀ code, default [] (b_ciku st !! code)
               `prefix_of` default [] (b_ciku st' !! code))
    ∧ (b_new_word_count st ≤ b_new_word_count st')%nat
    ∧ (b_new_word_count st' = b_new_word_count st ↔ b_ciku st' = b_ciku st)
    ∧ (∀ code word,
         word ∈ default [] (b_ciku st' !! code) →
         word ∈ default [] (b_ciku st !! code)
         ∨ (word ∈ words_to_add ∧ (word ∉ flat)
            ∧ generate_word_code word (b_danzi st') = Ok (Some code, []))).
Proof.
  induction words_to_add as [|word0 rest IH]; intros st st' Hloop.
  - simpl in Hloop. injection Hloop as <-.
    repeat split; try done. intros code word Hin. by left.
  - simpl in Hloop.
    destruct (batch_word flat st word0) as [st1|e] eqn:Hstep; [|done].
    cbn [mbind result_bind] in Hloop.
    apply batch_word_inv in Hstep as (Hsub1 & Hsuf1 & Hstep).
    destruct (IH _ _ Hloop) as (Hsub & Hsuf & Hpre & Hle & Hiff & Hnew).
    split; [by etrans|]. split; [by etrans|].
    destruct Hstep as [[Hciku Hcount]|(code0 & Hnotin & Hgen & Hciku & Hcount)].
    + rewrite <- Hciku, <- Hcount.
      split; [done|]. split; [done|]. split; [done|].
      intros code word Hin. destruct (Hnew code word Hin) as [?|(? & ? & ?)].
      * by left.
      * right. split; [by right|done].
    + assert (∀ code, default [] (b_ciku st !! code)
                      `prefix_of` default [] (b_ciku st1 !! code)) as Hpre1.
      { intros code. rewrite Hciku. destruct (decide (code = code0)) as [->|Hne].
        - rewrite lookup_insert_eq. simpl. by apply prefix_app_r.
        - by rewrite lookup_insert_ne. }
      split; [intros code; etrans; [apply Hpre1|apply Hpre]|]. split; [lia|]. split.
      * split; [lia|]. intros Hsame. exfalso.
        pose proof (Hpre code0) as Hp. rewrite Hsame, Hciku in Hp.
        rewrite lookup_insert_eq in Hp. simpl in Hp.
        apply prefix_length in Hp. rewrite length_app in Hp. simpl in Hp. lia.
      * intros code word Hin. destruct (Hnew code word Hin) as [Hold|(? & ? & ?)].
        2: { right. split; [by right|done]. }
        rewrite Hciku in Hold. destruct (decide (code = code0)) as [->|Hne].
        -- rewrite lookup_insert_eq in Hold. simpl in Hold.
           apply elem_of_app in Hold as [Hold|Hold]; [by left|].
           apply list_elem_of_singleton in Hold as ->. right.
           split; [by left|]. split; [done|]. by eapply generate_mono.
        -- rewrite lookup_insert_ne in Hold by done. by left.
Qed.

Section batch_entry_properties.
Context {U : UnicodeData}.

Lemma batch_entry_mode_loop (ciku : gmap str (list str)) (danzi : gmap str str)
    (answers : list str) (batch_file : list str) :
  batch_entry_mode ciku danzi answers batch_file
  = batch_loop (ciku_flat ciku)
      {| b_ciku := ciku; b_danzi := danzi; b_answers := answers;
         b_new_word_count := 0 |}
      (stripped_lines batch_file).
Proof. unfold batch_entry_mode. by destruct (stripped_lines batch_file). Qed.

(** Batch entry, when it ends, has kept every code of the character table
    (characters are only added), has read the answers from the front, and
    has only appended to the lists of the dictionary: the words a code had
    come first, in their old order. *)
Theorem batch_only_appends (ciku : gmap str (list str)) (danzi : gmap str str)
    (answers : list str) (batch_file : list str) (st : batch_state) :
  batch_entry_mode ciku danzi answers batch_file = Ok st →
  danzi ⊆ b_danzi st
  ∧ b_answers st `suffix_of` answers
  ∧ ∀ code, default [] (ciku !! code) `prefix_of` default [] (b_ciku st !! code).
Proof.
  rewrite batch_entry_mode_loop. intros Hloop.
  apply batch_loop_inv in Hloop as (Hsub & Hsuf & Hpre & _). done.
Qed.

(** A word that batch entry added is a line of the batch file, was not in
    the dictionary before, and sits under the code that generate gives for
    it from the character table as it is at the end. *)
Theorem batch_added_word_code (ciku : gmap str (list str)) (danzi : gmap str str)
    (answers : list str) (batch_file : list str) (st : batch_state)
    (code word : str) :
  batch_entry_mode ciku danzi answers batch_file = Ok st →
  word ∈ default [] (b_ciku st !! code) →
  word ∈ default [] (ciku !! code)
  ∨ (word ∈ stripped_lines batch_file ∧ (word ∉ ciku_flat ciku)
     ∧ generate_word_code word (b_danzi st) = Ok (Some code, [])).
Proof.
  rewrite batch_entry_mode_loop. intros Hloop Hin.
  apply batch_loop_inv in Hloop as (_ & _ & _ & _ & _ & Hnew).
  by apply Hnew.
Qed.

(** The count that decides whether ciku.txt is written again is 0 exactly
    when the dictionary is as it was. *)
Theorem batch_writes_iff_changed (ciku : gmap str (list str)) (danzi : gmap str str)
    (answers : list str) (batch_file : list str) (st : batch_state) :
  batch_entry_mode ciku danzi answers batch_file = Ok st →
  b_new_word_count st = 0%nat ↔ b_ciku st = ciku.
Proof.
  rewrite batch_entry_mode_loop. intros Hloop.
  apply batch_loop_inv in Hloop as (_ & _ & _ & _ & Hiff & _). exact Hiff.
Qed.

(** A batch file whose words are all in the dictionary changes nothing
    and asks nothing. *)
Theorem batch_known_words_no_op (ciku : gmap str (list str)) (danzi : gmap str str)
    (answers : list str) (batch_file : list str) :
  Forall (fun word => word ∈ ciku_flat ciku) (stripped_lines batch_file) →
  batch_entry_mode ciku danzi answers batch_file
  = Ok {| b_ciku := ciku; b_danzi := danzi; b_answers := answers;
          b_new_word_count := 0 |}.
Proof.
  rewrite batch_entry_mode_loop. generalize (ciku_flat ciku) as flat.
  intros flat Hall. induction Hall as [|word rest Hin _ IH]; [done|].
  simpl. unfold batch_word. rewrite bool_decide_eq_true_2 by done. exact IH.
Qed.
End batch_entry_properties.

(** One round of entry_mode keeps every code of the character table and
    reads the answers from the front; it leaves the dictionary as it is,
    or stores the word, as [store_word] does, under the non-empty code
    that generate gives for it from the character table as it is at the
    end of the round. *)
Theorem entry_word_result (ciku ciku' : gmap str (list str))
    (danzi danzi' : gmap str str) (answers answers' : list str) (word : str) :
  entry_word ciku danzi answers word = Ok (ciku', danzi', answers') →
  danzi ⊆ danzi'
  ∧ answers' `suffix_of` answers
  ∧ (ciku' = ciku
     ∨ (∃ code, code ≠ []
          ∧ generate_word_code word danzi' = Ok (Some code, [])
          ∧ ciku' = store_word ciku code word)).
Proof.
  unfold entry_word.
  destruct (generate_word_code word danzi) as [[gc missing]|e] eqn:Hgen; [|done].
  cbn [mbind result_bind fst snd].
  destruct (resolve_missing word answers danzi gc missing)
    as [[[gc1 danzi1] answers1]|e] eqn:Hres; [|done].
  cbn [mbind result_bind].
  destruct (resolve_missing_inv _ _ _ _ _ _ _ _ Hgen Hres) as (Hsub & Hsuf & Hcode).
  destruct gc1 as [[|c code]|]; intros [= <- <- <-];
    (split; [done|]); (split; [done|]); [by left| |by left].
  right. exists (c :: code). destruct Hcode as [|Hcode]; done.
Qed.

Lemma batch_only_appends_witness :
  let danzi : gmap str str := {[ [30002] := lit "ab" ]} in
  let ciku : gmap str (list str) := {[ lit "abcd" := [[19993; 19969]] ]} in
  let st := {| b_ciku := {[ lit "abcd" := [[19993; 19969]; [30002; 20057]] ]};
               b_danzi := <[[20057] := lit "cd"]> danzi;
               b_answers := [lit "ef"]; b_new_word_count := 1 |} in
  danzi ⊆ b_danzi st
  ∧ b_answers st `suffix_of` [lit "cd"; lit "ef"]
  ∧ ∀ code, default [] (ciku !! code) `prefix_of` default [] (b_ciku st !! code).
Proof.
  apply (batch_only_appends (U := latin_cjk) _ _ _ [[30002; 20057; 10]]).
  vm_compute. reflexivity.
Defined.

Lemma batch_added_word_code_witness :
  let danzi : gmap str str := {[ [30002] := lit "ab" ]} in
  let ciku : gmap str (list str) := {[ lit "abcd" := [[19993; 19969]] ]} in
  let st := {| b_ciku := {[ lit "abcd" := [[19993; 19969]; [30002; 20057]] ]};
               b_danzi := <[[20057] := lit "cd"]> danzi;
               b_answers := [lit "ef"]; b_new_word_count := 1 |} in
  let word := [30002; 20057] in
  word ∈ default [] (ciku !! lit "abcd")
  ∨ (word ∈ stripped_lines (U := latin_cjk) [[30002; 20057; 10]]
     ∧ (word ∉ ciku_flat ciku)
     ∧ generate_word_code word (b_danzi st) = Ok (Some (lit "abcd"), [])).
Proof.
  intros danzi ciku st word.
  apply (batch_added_word_code (U := latin_cjk) ciku danzi
           [lit "cd"; lit "ef"] [[30002; 20057; 10]] st (lit "abcd") word).
  - vm_compute. reflexivity.
  - refine (bool_decide_unpack _ _). vm_compute. exact I.
Defined.

Lemma batch_writes_iff_changed_witness :
  let danzi : gmap str str := {[ [30002] := lit "ab" ]} in
  let ciku : gmap str (list str) := {[ lit "abcd" := [[19993; 19969]] ]} in
  let st := {| b_ciku := {[ lit "abcd" := [[19993; 19969]; [30002; 20057]] ]};
               b_danzi := <[[20057] := lit "cd"]> danzi;
               b_answers := [lit "ef"]; b_new_word_count := 1 |} in
  b_new_word_count st = 0%nat ↔ b_ciku st = ciku.
Proof.
  apply (batch_writes_iff_changed (U := latin_cjk) _ {[ [30002] := lit "ab" ]}
           [lit "cd"; lit "ef"] [[30002; 20057; 10]]).
  vm_compute. reflexivity.
Defined.

Lemma batch_known_words_no_op_witness :
  let ciku : gmap str (list str) := {[ lit "abcd" := [[19993; 19969]] ]} in
  batch_entry_mode (U := latin_cjk) ciku ∅ [] [[19993; 19969; 10]; [10]]
  = Ok {| b_ciku := ciku; b_danzi := ∅; b_answers := [];
          b_new_word_count := 0 |}.
Proof.
  apply (batch_known_words_no_op (U := latin_cjk)).
  refine (bool_decide_unpack (Forall _ _) _). vm_compute. exact I.
Defined.

Lemma entry_word_result_witness :
  let danzi : gmap str str := {[ [30002] := lit "ab" ]} in
  let danzi' : gmap str str := <[[20057] := lit "cd"]> danzi in
  let ciku : gmap str (list str) := {[ lit "abcd" := [[19993; 19969]] ]} in
  let ciku' : gmap str (list str) :=
    {[ lit "abcd" := [[19993; 19969]; [30002; 20057]] ]} in
  danzi ⊆ danzi'
  ∧ [lit "ef"] `suffix_of` [lit "cd"; lit "ef"]
  ∧ (ciku' = ciku
     ∨ (∃ code, code ≠ []
          ∧ generate_word_code [30002; 20057] danzi' = Ok (Some code, [])
          ∧ ciku' = store_word ciku code [30002; 20057])).
Proof.
  apply (entry_word_result _ _ {[ [30002] := lit "ab" ]}).
  vm_compute. reflexivity.
Defined.

(** ** perform_upgrade: the word dictionary and the set of entries *)

Lemma str_leb_antisym (a b : str) :
  str_leb a b = true → str_leb b a = true → a = b.
Proof.
  revert b. induction a as [|x a IH]; intros [|y b]; simpl; try done.
  destruct (N.compare_spec x y) as [->|Hlt|Hgt].
  - rewrite N.ltb_irrefl, N.eqb_refl. simpl. intros H1 H2. f_equal. by apply IH.
  - assert ((x <? y) = true) as -> by by apply N.ltb_lt.
    assert ((y <? x) = false) as -> by (apply N.ltb_ge; lia).
    assert ((y =? x) = false) as -> by (apply N.eqb_neq; lia). done.
  - assert ((x <? y) = false) as -> by (apply N.ltb_ge; lia).
    assert ((x =? y) = false) as -> by (apply N.eqb_neq; lia). done.
Qed.

#[export] Instance str_le_antisym : AntiSymm (=) str_le.
Proof. intros a b. apply str_leb_antisym. Qed.

(** No list of the merge is empty. *)
Lemma collected_nonempty (entries : list (str * str)) (code : str) (words : list str) :
  foldl add_term ∅ entries !! code = Some words → words ≠ [].
Proof.
  revert words. induction entries as [|[term c] entries IH] using rev_ind;
    intros words.
  - simpl. by rewrite lookup_empty.
  - rewrite foldl_snoc, add_term_lookup.
    destruct (decide (c = code)) as [->|Hne]; [|apply IH].
    destruct (foldl add_term ∅ entries !! code) as [old|] eqn:Hold.
    + destruct (decide (term ∈ old)); intros [= <-]; [by apply IH|].
      by destruct old.
    + by intros [= <-].
Qed.

(** The merged dictionary depends on the set of the entries only: neither
    their order in the imported file nor their repetitions matter. *)
Theorem merge_depends_on_entry_set (entries entries' : list (str * str)) :
  (∀ e, e ∈ entries ↔ e ∈ entries') →
  new_ciku_structured entries = new_ciku_structured entries'.
Proof.
  intros Hsame. apply map_eq. intros code.
  unfold new_ciku_structured. rewrite !lookup_fmap.
  pose proof (collected_words entries code) as H.
  pose proof (collected_words entries' code) as H'.
  pose proof (collected_nonempty entries code) as Hne.
  pose proof (collected_nonempty entries' code) as Hne'.
  destruct (foldl add_term ∅ entries !! code) as [words|],
    (foldl add_term ∅ entries' !! code) as [words'|]; simpl.
  - destruct H as [Hnd Hin], H' as [Hnd' Hin']. f_equal.
    apply (StronglySorted_unique str_le); [apply py_sort_sorted..|].
    rewrite !py_sort_perm. apply NoDup_Permutation; [done..|].
    intros word. by rewrite Hin, Hin', Hsame.
  - destruct H as [_ Hin]. destruct words as [|word words]; [by destruct (Hne [])|].
    exfalso. apply (H' word), Hsame, Hin. left.
  - destruct H' as [_ Hin']. destruct words' as [|word words']; [by destruct (Hne' [])|].
    exfalso. apply (H word), Hsame, Hin'. left.
  - done.
Qed.

Lemma merge_depends_on_entry_set_witness :
  new_ciku_structured [([30002], lit "ab"); ([20057], lit "ab"); ([30002], lit "ab")]
  = new_ciku_structured [([20057], lit "ab"); ([30002], lit "ab")].
Proof.
  apply merge_depends_on_entry_set. intros e.
  rewrite !elem_of_cons, !elem_of_nil. tauto.
Defined.

(** ** The word dictionary file: what is written when a list is empty *)

Lemma concat_ciku_lines_filter (items : list (str * list str)) :
  concat (ciku_line <$> items)
  = concat (ciku_line <$> filter (fun x => x.2 ≠ []) items).
Proof.
  induction items as [|[code words] items IH]; [done|].
  rewrite filter_cons. destruct (decide _) as [Hne|Hnil].
  - rewrite !fmap_cons. cbn [concat]. f_equal. exact IH.
  - rewrite fmap_cons. cbn [concat]. destruct words as [|w ws]; [exact IH|].
    exfalso. by apply Hnil.
Qed.

Section pruned_file_properties.
Context {U : UnicodeData}.

(** Loading what was written gives the dictionary without the codes
    whose list is empty. *)
Lemma load_written (data : gmap str (list str)) :
  (∀ code words, data !! code = Some words → token code ∧ Forall token words) →
  load_ciku_structured (Some (write_ciku_structured data))
  = filter (fun x => x.2 ≠ []) data.
Proof.
  intros Hok. unfold load_ciku_structured, write_ciku_structured.
  assert (Hperm : sorted_items data ≡ₚ map_to_list data)
    by apply merge_sort_Permutation.
  rewrite concat_ciku_lines_filter.
  assert (Hitems : Forall item_ok (filter (fun x => x.2 ≠ []) (sorted_items data))).
  { apply Forall_forall. intros [code words] Hin.
    apply list_elem_of_filter in Hin as [Hne Hin]. rewrite Hperm in Hin.
    apply elem_of_map_to_list in Hin. destruct (Hok _ _ Hin) as [Hcode Hwords].
    by split. }
  rewrite file_lines_written, foldl_load_lines, foldl_insert_items by done.
  apply map_eq. intros code. apply option_eq. intros words.
  rewrite map_lookup_filter_Some. rewrite <- elem_of_list_to_map.
  - rewrite elem_of_reverse, list_elem_of_filter, Hperm, elem_of_map_to_list.
    simpl. tauto.
  - rewrite fmap_reverse, reverse_Permutation.
    eapply sublist_NoDup; [|apply fmap_sublist, sublist_filter].
    rewrite Hperm. apply NoDup_fst_map_to_list.
Qed.

(** The ciku.txt that perform_upgrade writes loads back as the merged
    dictionary, when the words and the codes of the entries are not empty
    and free of white space. *)
Theorem upgrade_then_reload (all_entries : list (str * str)) :
  Forall (fun e => token e.1 ∧ token e.2) all_entries →
  load_ciku_structured (Some (write_ciku_structured (new_ciku_structured all_entries)))
  = new_ciku_structured all_entries.
Proof.
  intros Hall.
  assert (∀ code words, new_ciku_structured all_entries !! code = Some words →
            words ≠ [] ∧ token code ∧ Forall token words) as Hok.
  { intros code words. unfold new_ciku_structured. rewrite lookup_fmap.
    pose proof (collected_words all_entries code) as Hcol.
    pose proof (collected_nonempty all_entries code) as Hne.
    destruct (foldl add_term ∅ all_entries !! code) as [ws|]; [|done].
    destruct Hcol as [_ Hin]. intros [= <-].
    assert (Forall (fun w => token w ∧ token code) ws) as Hws.
    { apply Forall_forall. intros w Hw. apply Hin in Hw.
      by apply (proj1 (Forall_forall _ _) Hall (w, code)). }
    split; [|split].
    - intros Hnil. apply (Hne ws); [done|].
      apply Permutation_nil_r. by rewrite <- Hnil, py_sort_perm.
    - destruct ws as [|w ws]; [by destruct (Hne [])|].
      by apply Forall_cons in Hws as [[_ ?] _].
    - rewrite py_sort_perm. eapply Forall_impl; [exact Hws|]. by intros w [? _]. }
  rewrite load_written.
  - apply map_filter_id. intros code words Hl. by apply Hok in Hl as [? _].
  - intros code words Hl. by apply Hok in Hl as (_ & ? & ?).
Qed.

(** For a dictionary whose codes and words are not empty and free of
    white space and whose lists are not empty (a word with a blank inside
    would load back as two words): what edit_mode leaves in ciku.txt
    after an accepted deletion (it writes right after the pop, the
    emptied list still in the dictionary) loads back as the dictionary
    with the word removed and, when that was the last word of the code,
    without the code. *)
Theorem delete_then_reload (ciku : gmap str (list str)) (code : str)
    (word_list : list str) (del_idx : Z) :
  (∀ code words, ciku !! code = Some words →
                 token code ∧ words ≠ [] ∧ Forall token words) →
  ciku !! code = Some word_list →
  (0 ≤ del_idx < Z.of_nat (length word_list))%Z →
  load_ciku_structured
    (Some (write_ciku_structured (<[code := delete (Z.to_nat del_idx) word_list]> ciku)))
  = delete_word ciku code del_idx.
Proof.
  intros Hok Hcode Hidx.
  assert (filter (fun x : str * list str => x.2 ≠ []) ciku = ciku) as Hid.
  { apply map_filter_id. intros c ws Hl. by apply Hok in Hl as (_ & ? & _). }
  rewrite load_written.
  - unfold delete_word. rewrite Hcode, bool_decide_eq_true_2 by done.
    destruct (delete (Z.to_nat del_idx) word_list) as [|w ws] eqn:Hdel.
    + rewrite map_filter_insert_False by (simpl; tauto).
      by rewrite map_filter_delete, Hid.
    + rewrite map_filter_insert_True by done. by rewrite Hid.
  - intros c ws. rewrite lookup_insert_Some. intros [[<- <-]|[_ Hl]].
    + destruct (Hok _ _ Hcode) as (? & _ & ?). split; [done|]. by apply Forall_delete.
    + by apply Hok in Hl as (? & _ & ?).
Qed.
End pruned_file_properties.

Lemma upgrade_then_reload_witness :
  let all_entries := [([30002; 20057], lit "ab"); ([19993], lit "ab");
                      ([30002; 20057], lit "ab")] in
  load_ciku_structured (U := latin_cjk)
    (Some (write_ciku_structured (new_ciku_structured all_entries)))
  = new_ciku_structured all_entries.
Proof.
  apply (upgrade_then_reload (U := latin_cjk)).
  repeat (apply Forall_cons; split; [|]); try apply Forall_nil;
    (split; (split; [done|by repeat constructor])).
Defined.

Lemma delete_then_reload_witness :
  let ciku : gmap str (list str) :=
    <[lit "gg" := [[24037; 20316]]]> (<[lit "a" := [[24037]; [20316]]]> ∅) in
  load_ciku_structured (U := latin_cjk)
    (Some (write_ciku_structured
             (<[lit "gg" := delete (Z.to_nat 0) [[24037; 20316]]]> ciku)))
  = delete_word ciku (lit "gg") 0.
Proof.
  apply (delete_then_reload (U := latin_cjk)).
  - intros code words.
    rewrite !lookup_insert, lookup_empty.
    repeat case_decide; intros [= <-]; subst;
      (split; [split; [done|by repeat constructor]|]);
      (split; [done|]); repeat constructor; done.
  - reflexivity.
  - simpl. lia.
Defined.

(** ** export_rime_dict: the weights *)

Lemma export_words_weights (stem_data : gmap str str) (code : str) (words : list str) :
  ∀ (export_lines : list str) (weight : Z),
    foldl (export_word stem_data code) (export_lines, weight) words
    = (export_lines
       ++ imap (fun i word =>
                  export_line stem_data code word (weight - 10 * Z.of_nat i)) words,
       (weight - 10 * Z.of_nat (length words))%Z).
Proof.
  induction words as [|word words IH]; intros export_lines weight.
  - simpl. rewrite app_nil_r. do 2 f_equal. lia.
  - cbn [foldl export_word]. rewrite IH. rewrite <- app_assoc. f_equal.
    + f_equal. cbn [imap app]. f_equal; [f_equal; lia|].
      apply imap_ext. intros i w _. simpl. f_equal. lia.
    + cbn [length]. lia.
Qed.

Lemma export_items_weights (stem_data : gmap str str) (items : list (str * list str)) :
  ∀ export_lines : list str,
    foldl (export_item stem_data) export_lines items
    = export_lines
      ++ concat ((fun x : str * list str =>
                    imap (fun i word =>
                            export_line stem_data x.1 word (1100000 - 10 * Z.of_nat i))
                         x.2)
                 <$> items).
Proof.
  induction items as [|[code words] items IH]; intros export_lines.
  - simpl. by rewrite app_nil_r.
  - cbn [foldl export_item]. rewrite export_words_weights. cbn [fst].
    rewrite IH. rewrite fmap_cons. cbn [concat fst snd]. by rewrite app_assoc.
Qed.

(** The exported lines are those of the head file, the line of the export
    time, and then, code after code in ascending order, one line per word
    in the order of the list, the word at position [i] of a list with the
    weight 1100000 - 10 i: the weights start again with each code. *)
Theorem export_weights (ciku : gmap str (list str)) (stem_data : gmap str str)
    (head_file : option str) (current_time : str) :
  export_rime_dict ciku stem_data head_file current_time
  = match head_file with Some text => file_lines text | None => [] end
    ++ [[35; 32; 23548; 20986; 26102; 38388; 65306] ++ current_time ++ [10]]
    ++ concat ((fun x : str * list str =>
                  imap (fun i word =>
                          export_line stem_data x.1 word (1100000 - 10 * Z.of_nat i))
                       x.2)
               <$> sorted_items ciku).
Proof.
  unfold export_rime_dict. cbv zeta.
  rewrite export_items_weights. by rewrite <- app_assoc.
Qed.
